(** * SC.IndexSet: a run-encoded set of indices

    Shallow embedding of [frameworks/runtime/system/index_set.js].

    The receiver's own state is the sparse array [_content], the frontier
    [_last] and the cached cardinality [length].  Cells of [_content] are
    read and written by integer key, so the array is a finite map from
    integers to integers; a key that was never written reads as
    [undefined].

    Numbers are integers here.  A JavaScript expression that may evaluate
    to [undefined] or to [NaN] has type [option Z], with [None] standing
    for either: the code only compares such a value (every comparison
    with it is false), takes [Math.abs] of it, does arithmetic on it or
    uses it as a key in a read, and the two behave alike under all
    four. *)

From Stdlib Require Import ZArith Lia.
From stdpp Require Import gmap strings list sorting pretty.

#[local] Open Scope Z_scope.

Module SC.

(** ** JavaScript operators on possibly undefined numbers *)

(** [a < b], false as soon as one side is undefined or NaN. *)
Definition js_lt (a b : option Z) : bool :=
  match a, b with Some x, Some y => x <? y | _, _ => false end.

Definition js_le (a b : option Z) : bool :=
  match a, b with Some x, Some y => x <=? y | _, _ => false end.

Definition js_gt (a b : option Z) : bool := js_lt b a.

Definition js_ge (a b : option Z) : bool := js_le b a.

(** [Math.abs(v)]: NaN on undefined. *)
Definition Math_abs (v : option Z) : option Z := Z.abs <$> v.

(** [content[k]]: a read with an undefined key finds nothing. *)
Definition get (content : gmap Z Z) (k : option Z) : option Z :=
  k ≫= (content !!.).

(** [SC.IndexSet.HINT_SIZE] *)
Definition HINT_SIZE : Z := 256.

(** ** The object *)

Record IndexSet := mkIndexSet {
  _content : gmap Z Z;
  _last : Z;
  length : Z;
  (** Modelled from the spec: the change-notification hook, which the
      enumerable mixin supplies as [enumerableContentDidChange]; the
      calls it has received, oldest first *)
  didChange : list (Z * Z)
}.

(** [new SC.IndexSet(ranges)]: the argument is not read. *)
Definition new_IndexSet (ranges : option (list Z)) : IndexSet :=
  {| _content := {[ 0 := 0 ]}; _last := 0; length := 0; didChange := [] |}.

(** [SC.IndexSet.create(items)] *)
Definition create (items : option (list Z)) : IndexSet := new_IndexSet items.

(** ** rangeStartForIndex *)

(** The loop [while (next < index) { ret = next; next = Math.abs(content[ret]) }].
    One unit of fuel per iteration; [None] when the fuel runs out. *)
Fixpoint rangeStart_walk (fuel : nat) (content : gmap Z Z) (index : Z)
    (ret next : option Z) : option (option Z) :=
  if js_lt next (Some index) then
    match fuel with
    | O => None
    | S fuel' =>
        rangeStart_walk fuel' content index next (Math_abs (get content next))
    end
  else Some ret.

Definition rangeStartForIndex (fuel : nat) (s : IndexSet) (index : Z)
    : option (option Z) :=
  let content := _content s in
  if index >=? _last s then Some (Some (_last s))
  else if js_gt (content !! index) (Some 0) then Some (Some index)
  else
    let ret := content !! (index - Z.rem index 256) in
    let next := Math_abs (get content ret) in
    rangeStart_walk fuel content index ret next.

(** ** contains *)

(** The normalisation that opens [contains] and [add]:
    [length === undefined] with a numeric [start] means one index.  The
    form that passes a range object is the same call with the two fields
    of the object. *)
Definition normalize (length : option Z) : Z := default 1 length.

Definition contains (fuel : nat) (s : IndexSet) (start : Z)
    (length : option Z) : option bool :=
  let length := normalize length in
  rstart ← rangeStartForIndex fuel s start;
  let rnext := get (_content s) rstart in
  Some (js_gt rnext (Some 0) && js_le rstart (Some start)
        && js_ge rnext (Some (start + length))).

(** ** _hint *)

(** The inner loop [while (next <= loc) { start = next; next = Math.abs(content[start]) }];
    returns the final [(start, next)]. *)
Fixpoint hint_seek (fuel : nat) (content : gmap Z Z) (start : Z)
    (next : option Z) (loc : Z) : option (Z * option Z) :=
  match next with
  | Some n =>
      if n <=? loc then
        match fuel with
        | O => None
        | S fuel' => hint_seek fuel' content n (Math_abs (content !! n)) loc
        end
      else Some (start, next)
  | None => Some (start, next)
  end.

(** The outer loop [while (loc < lim) { ...; loc += skip }]. *)
Fixpoint hint_loop (fuel : nat) (content : gmap Z Z) (start : Z)
    (next : option Z) (loc lim : Z) : option (gmap Z Z) :=
  if loc <? lim then
    match fuel with
    | O => None
    | S fuel' =>
        '(start', next') ← hint_seek fuel content start next loc;
        let content' :=
          if decide (loc ≠ start') then <[ loc := start' ]> content
          else content in
        hint_loop fuel' content' start' next' (loc + HINT_SIZE) lim
    end
  else Some content.

(** [_hint(start, length)].  With either argument undefined, [loc] or
    [lim] is NaN and the loop is not entered. *)
Definition _hint (fuel : nat) (content : gmap Z Z) (start length : option Z)
    : option (gmap Z Z) :=
  match start, length with
  | Some start, Some length =>
      let skip := HINT_SIZE in
      let next := Math_abs (content !! start) in
      let loc := start - Z.rem start skip + skip in
      let lim := start + length in
      hint_loop fuel content start next loc lim
  | _, _ => Some content
  end.

(** ** add

    [this.set('length', v)], from the observable mixin, assigns the
    property.  The call returns the receiver on every path. *)

Definition add (fuel : nat) (start : Z) (length_arg : option Z)
    (s : IndexSet) : option IndexSet :=
  let len := normalize length_arg in
  let last := _last s in
  let content := _content s in
  let '(s1, hstart, hlength) :=
    if start >? last then
      let content := <[ last := 0 - start ]> content in
      let content := <[ start := start + len ]> content in
      let content := <[ start + len := 0 ]> content in
      let s1 := {| _content := content; _last := start + len;
                   length := length s + len; didChange := didChange s |} in
      (s1, Some last, Some (_last s1 - last))
    else (s, None, None) in
  content' ← _hint fuel (_content s1) hstart hlength;
  Some {| _content := content'; _last := _last s1; length := length s1;
          didChange := didChange s1 ++ [(start, len)] |}.

(** ** nextObject *)

(** [do { idx = Math.abs(next); next = content[idx] } while (next < 0)];
    returns the final [(idx, next)]. *)
Fixpoint next_range (fuel : nat) (content : gmap Z Z) (next : Z)
    : option (Z * option Z) :=
  let idx := Z.abs next in
  match content !! idx with
  | Some n =>
      if n <? 0 then
        match fuel with
        | O => None
        | S fuel' => next_range fuel' content n
        end
      else Some (idx, Some n)
  | None => Some (idx, None)
  end.

(** [nextObject(ignore, idx, context)].  [idx = None] is the seed [null];
    the second argument and the second component of the result are
    [context.next] before and after the call; a result [None] is [null]. *)
Definition nextObject (fuel : nat) (s : IndexSet) (idx : option Z)
    (context_next : option Z) : option (option Z * option Z) :=
  let content := _content s in
  let step (idx : Z) (next : option Z) :=
    if decide (Some idx = next) then
      '(idx', next') ← next_range fuel content idx;
      Some (Some idx', next')
    else Some (Some idx, next) in
  match idx with
  | None => step 0 (Some 0)
  | Some i =>
      if i >=? _last s then Some (None, context_next)
      else step (i + 1) context_next
  end.

(** Modelled from the spec: the driver of the iteration protocol, which
    the enumerable mixin supplies and this file of the repository only
    implements [nextObject] for.  It starts from the start-of-sequence
    sentinel [null] with a fresh context, feeds each result back as the
    previous index and stops at the terminal sentinel [null]; the result
    is the list of the indices produced, in order. *)
Fixpoint drive (calls fuel : nat) (s : IndexSet) (idx context_next : option Z)
    : option (list Z) :=
  match calls with
  | O => None
  | S calls' =>
      '(r, context_next') ← nextObject fuel s idx context_next;
      match r with
      | None => Some []
      | Some i => (i ::.) <$> drive calls' fuel s (Some i) context_next'
      end
  end.

Definition enumerate (fuel : nat) (s : IndexSet) : option (list Z) :=
  drive fuel fuel s None None.

(** ** The methods of the prototype

    The functions the literal passed to [SC.mixin] defines, and the
    aliases assigned after it.  [slice] and [shift] are assigned
    [prototype.clone] and [prototype.pop], which the literal does not
    define, so they read as undefined like any other missing name. *)
Inductive method :=
  | m_rangeStartForIndex | m_contains | m_add | m_hint
  | m_inspect | m_nextObject | m_toString.

Definition prototype : gmap string method :=
  list_to_map
    [ ("rangeStartForIndex", m_rangeStartForIndex); ("contains", m_contains);
      ("add", m_add); ("_hint", m_hint); ("inspect", m_inspect);
      ("nextObject", m_nextObject); ("toString", m_toString);
      ("push", m_add); ("unshift", m_add) ]%string.

(** ** Reading the representation *)

(** A cell whose value is greater than its key is the start of an
    occupied range that ends (exclusive) at the value. *)
Definition present_run (s : IndexSet) (k e : Z) : Prop :=
  _content s !! k = Some e ∧ k < e.

(** An index is present when an occupied range covers it. *)
Definition present (s : IndexSet) (i : Z) : Prop :=
  ∃ k e, present_run s k e ∧ k ≤ i < e.

(** The sets a caller can build: the constructor, then calls of [add]
    with a non-negative start and a non-negative length that returned. *)
Inductive reachable : IndexSet → Prop :=
  | reachable_create items : reachable (create items)
  | reachable_add s fuel start len s' :
      reachable s → 0 ≤ start → 0 ≤ normalize len →
      add fuel start len s = Some s' → reachable s'.

(** The cells an append writes before the hint pass. *)
Definition appended (c : gmap Z Z) (last start len : Z) : gmap Z Z :=
  <[ start + len := 0 ]> (<[ start := start + len ]> (<[ last := 0 - start ]> c)).

(** ** The representation invariant

    [chain c a rs lst]: in [c], the cells reached from the start [a] of
    an absent range describe the occupied ranges [rs], in order, and end
    at the frontier [lst], whose cell holds the end mark [0].  An absent
    range may be followed by another one: an append of length zero leaves
    no occupied range behind. *)
Inductive chain (c : gmap Z Z) : Z → list (Z * Z) → Z → Prop :=
  | chain_end a :
      c !! a = Some 0 → chain c a [] a
  | chain_run a s e rs lst :
      c !! a = Some (- s) → a < s → c !! s = Some e → s < e →
      chain c e rs lst → chain c a ((s, e) :: rs) lst
  | chain_skip a s rs lst :
      c !! a = Some (- s) → a < s →
      chain c s rs lst → chain c a rs lst.

(** [linked c lst k]: following the magnitudes of the cells from [k]
    climbs strictly and arrives at the frontier. *)
Inductive linked (c : gmap Z Z) (lst : Z) : Z → Prop :=
  | linked_last : c !! lst = Some 0 → linked c lst lst
  | linked_step k v :
      c !! k = Some v → k < Z.abs v → linked c lst (Z.abs v) →
      linked c lst k.

(** Number of indices in a list of ranges. *)
Definition total (rs : list (Z * Z)) : Z :=
  foldr (λ r acc, (r.2 - r.1) + acc) 0 rs.

(** The indices of a list of ranges, in order. *)
Definition indices (rs : list (Z * Z)) : list Z :=
  flat_map (λ r, seqZ r.1 (r.2 - r.1)) rs.

(** From the start of an absent range the search stops at the next
    occupied range, or at the frontier when there is none. *)
Definition first_stop (rs : list (Z * Z)) (lst : Z) : Z * option Z :=
  match rs with
  | [] => (lst, Some 0)
  | (s, e) :: _ => (s, Some e)
  end.

(** The occupied range an append leaves behind: none when it is empty. *)
Definition new_run (start len : Z) : list (Z * Z) :=
  if decide (0 < len) then [(start, start + len)] else [].

(** [Inv s rs]: the occupied ranges of [s] are [rs]; [length] counts
    them; every cell sits between 0 and the frontier, holds the negated
    start of the next range or a key from which the frontier is reached,
    and, unless it starts an occupied range of [rs], holds no more than
    its own key (an end of an absent range, the end mark or a hint). *)
Definition Inv (s : IndexSet) (rs : list (Z * Z)) : Prop :=
  chain (_content s) 0 rs (_last s) ∧
  length s = total rs ∧
  ∀ k v, _content s !! k = Some v →
    0 ≤ k ≤ _last s ∧
    (v < 0 ∨ linked (_content s) (_last s) v) ∧
    (v ≤ k ∨ (k, v) ∈ rs).

(** ** Sequences of calls *)

(** [set.add(s1, l1).add(s2, l2)...]: the calls chained on the receiver
    each call returns. *)
Fixpoint add_all (fuel : nat) (calls : list (Z * Z)) (s : IndexSet)
    : option IndexSet :=
  match calls with
  | [] => Some s
  | (start, len) :: calls' =>
      s' ← add fuel start (Some len) s; add_all fuel calls' s'
  end.

(** The ranges that a sequence of calls appends to a set whose frontier
    is [last]: a call counts when its start lies beyond the frontier
    left by the calls before it. *)
Fixpoint effective (last : Z) (calls : list (Z * Z)) : list (Z * Z) :=
  match calls with
  | [] => []
  | (start, len) :: calls' =>
      if start >? last then
        (start, start + len) :: effective (start + len) calls'
      else effective last calls'
  end.

(** The frontier after those ranges. *)
Definition frontier_after (last : Z) (runs : list (Z * Z)) : Z :=
  foldl (λ _ r, r.2) last runs.

(** ** Two sets used as instances

    The set left by [add(5, 5)] on the empty set, and the set left by
    [add(20, 5)] on that one. *)
Definition one_run : IndexSet :=
  {| _content := appended {[ 0 := 0 ]} 0 5 5; _last := 10; length := 5;
     didChange := [(5, 5)] |}.

Definition two_runs : IndexSet :=
  {| _content := appended (appended {[ 0 := 0 ]} 0 5 5) 10 20 5; _last := 25;
     length := 10; didChange := [(5, 5); (20, 5)] |}.

(** ** Hints

    [chain_at c h rs lst]: [h] starts a range, absent or occupied, and
    from it the chain describes the occupied ranges [rs] up to the
    frontier. *)
Definition chain_at (c : gmap Z Z) (h : Z) (rs : list (Z * Z)) (lst : Z)
    : Prop :=
  chain c h rs lst ∨
  ∃ w rs', rs = (h, w) :: rs' ∧ c !! h = Some w ∧ h < w ∧ chain c w rs' lst.

(** [hints_ok s rs]: every multiple of 256 strictly between 0 and the
    frontier holds a cell, and when the cell is a hint, a value that is
    not negative and less than its key, the value is the start of the
    range that contains the position; the occupied ranges before that
    start have ended. *)
Definition hints_ok (s : IndexSet) (rs : list (Z * Z)) : Prop :=
  ∀ m, 0 < m < _last s → (256 | m) →
    ∃ v, _content s !! m = Some v ∧
      (0 ≤ v < m →
       ∃ rs0 rs' w,
         rs = rs0 ++ rs' ∧ chain_at (_content s) v rs' (_last s) ∧
         (∀ a b, (a, b) ∈ rs0 → b ≤ v) ∧
         _content s !! v = Some w ∧ m < Z.abs w).

(** The set left by [add(5, 1000)] on the empty set, with hints at 256,
    512 and 768. *)
Definition long_run : IndexSet :=
  {| _content :=
       <[ 768 := 5 ]> (<[ 512 := 5 ]> (<[ 256 := 5 ]>
         (appended {[ 0 := 0 ]} 0 5 1000)));
     _last := 1005; length := 1000; didChange := [(5, 1000)] |}.

(** ** inspect *)

(** [content.length]: one more than the largest array index among the
    keys.  An array index is an integer from 0 to 2^32 - 2; a key
    outside that range, negative or larger, is a plain property of the
    array object and does not move the length. *)
Definition max_array_index : Z := 4294967294.

Definition array_length (c : gmap Z Z) : Z :=
  1 + foldr Z.max (-1)
        (filter (λ k, 0 ≤ k ≤ max_array_index) (map_to_list c).*1).

(** The loop of [inspect]: for [idx] from 0 up to [content.length], the
    pair of [idx] and its item when the item is defined. *)
Definition inspect_entries (s : IndexSet) : list (Z * Z) :=
  omap (λ idx, (λ item, (idx, item)) <$> _content s !! idx)
       (seqZ 0 (array_length (_content s))).

(** Modelled from the spec: ["%@:%@".fmt(idx, item)], from the string
    extensions of the framework, which are not in this file: each [%@]
    is replaced by the decimal form of the argument. *)
Definition fmt_entry (e : Z * Z) : string :=
  pretty e.1 +:+ ":" +:+ pretty e.2.

Definition inspect (s : IndexSet) : string :=
  "SC.IndexSet<" +:+ String.concat " , " (fmt_entry <$> inspect_entries s)
  +:+ ">".

(** ** Absent ranges and resolved lookups *)

(** [gaps_ok s rs]: a cell with a negative value starts an absent range:
    the range ends, at the magnitude of the value, no later than the
    frontier, and no occupied range of [rs] meets it. *)
Definition gaps_ok (s : IndexSet) (rs : list (Z * Z)) : Prop :=
  ∀ k v, _content s !! k = Some v → v < 0 →
    - v ≤ _last s ∧ ∀ a b, (a, b) ∈ rs → b ≤ k ∨ - v ≤ a.

(** [resolves s start h]: [h] is the start of the range, occupied or
    absent, that contains [start]: a key at or before [start] whose
    cell ends, in magnitude, beyond it. *)
Definition resolves (s : IndexSet) (start h : Z) : Prop :=
  ∃ w, _content s !! h = Some w ∧ h ≤ start < Z.abs w.

End SC.

Import SC.

(** * The merge branch of [add] *)

Lemma add_at_or_below_last fuel start len s :
  start ≤ _last s →
  add fuel start len s =
    Some {| _content := _content s; _last := _last s; length := length s;
            didChange := didChange s ++ [(start, normalize len)] |}.
Proof.
  intros Hle. unfold add.
  destruct (start >? _last s) eqn:Hgt; [lia|]. reflexivity.
Qed.

(** * The hint pass that follows an append

    After an append the chain read by [_hint] is the old frontier, the
    new start and the new frontier: the inner loop moves at most once,
    and the pass writes only strictly between the old and the new
    frontier, never at the new start. *)

Lemma hint_seek_settled fuel c start lim loc :
  loc < lim → hint_seek fuel c start (Some lim) loc = Some (start, Some lim).
Proof.
  intros Hlt. destruct fuel; simpl;
    (destruct (lim <=? loc) eqn:E; [lia | reflexivity]).
Qed.

Lemma hint_loop_in_run start lim fuel :
  ∀ c loc,
    lim - loc ≤ Z.of_nat fuel → start ≤ loc →
    ∃ c', hint_loop fuel c start (Some lim) loc lim = Some c' ∧
      ∀ k, c' !! k = c !! k ∨
           (loc ≤ k < lim ∧ k ≠ start ∧ c' !! k = Some start).
Proof.
  induction fuel as [|fuel IH]; intros c loc Hfuel Hloc.
  - exists c. simpl. destruct (loc <? lim) eqn:E; [lia|]. split; auto.
  - cbn [hint_loop]. destruct (loc <? lim) eqn:E.
    + rewrite hint_seek_settled by lia. cbn.
      unfold HINT_SIZE in *.
      destruct (IH (if decide (loc ≠ start) then <[loc:=start]> c else c)
                   (loc + 256)) as (c' & Hrun & Hc'); [lia | lia |].
      exists c'. split; [exact Hrun|]. intros k.
      destruct (Hc' k) as [Hk | (Hr & Hne & Hk)].
      * rewrite Hk. destruct (decide (loc ≠ start)) as [Hn|Hn]; [|by left].
        destruct (decide (k = loc)) as [->|Hkl].
        -- right. rewrite lookup_insert_eq. repeat split; auto; lia.
        -- left. by rewrite lookup_insert_ne.
      * right. repeat split; auto; lia.
    + exists c. split; auto.
Qed.

Lemma hint_loop_in_gap last start lim fuel :
  last < start → start ≤ lim → 0 ≤ lim →
  ∀ c loc,
    lim - loc ≤ Z.of_nat fuel → last < loc →
    (start < lim → c !! start = Some lim) →
    ∃ c', hint_loop fuel c last (Some start) loc lim = Some c' ∧
      ∀ k, c' !! k = c !! k ∨
           (loc ≤ k < lim ∧ k ≠ start ∧
            c' !! k = Some (if k <? start then last else start)).
Proof.
  intros Hls Hsl Hlim.
  induction fuel as [|fuel IH]; intros c loc Hfuel Hloc Hcell.
  - exists c. simpl. destruct (loc <? lim) eqn:E; [lia|]. split; auto.
  - cbn [hint_loop]. destruct (loc <? lim) eqn:E; [|exists c; split; auto].
    cbn [hint_seek]. unfold HINT_SIZE in *.
    destruct (start <=? loc) eqn:Es.
    + (* the first hint at or after the new start *)
      rewrite Hcell by lia. cbn [Math_abs fmap option_fmap option_map].
      rewrite Z.abs_eq by lia. rewrite hint_seek_settled by lia. cbn.
      destruct (hint_loop_in_run start lim fuel
                  (if decide (loc ≠ start) then <[loc:=start]> c else c)
                  (loc + 256)) as (c' & Hrun & Hc'); [lia | lia |].
      exists c'. split; [exact Hrun|]. intros k.
      destruct (Hc' k) as [Hk | (Hr & Hne & Hk)].
      * rewrite Hk. destruct (decide (loc ≠ start)) as [Hn|Hn]; [|by left].
        destruct (decide (k = loc)) as [->|Hkl].
        -- right. rewrite lookup_insert_eq.
           destruct (loc <? start) eqn:E'; [lia|]. repeat split; auto; lia.
        -- left. by rewrite lookup_insert_ne.
      * right. destruct (k <? start) eqn:E'; [lia|]. repeat split; auto; lia.
    + (* still inside the gap *)
      cbn. destruct (decide (loc ≠ last)) as [_|Hn]; [|lia].
      destruct (IH (<[loc:=last]> c) (loc + 256)) as (c' & Hrun & Hc');
        [lia | lia | |].
      { intros Hlt. rewrite lookup_insert_ne by lia. auto. }
      exists c'. split; [exact Hrun|]. intros k.
      destruct (Hc' k) as [Hk | (Hr & Hne & Hk)].
      * rewrite Hk. destruct (decide (k = loc)) as [->|Hkl].
        -- right. rewrite lookup_insert_eq.
           destruct (loc <? start) eqn:E'; [|lia]. repeat split; auto; lia.
        -- left. by rewrite lookup_insert_ne.
      * right. repeat split; auto; lia.
Qed.

Lemma hint_loc_after (last : Z) : last < last - Z.rem last 256 + 256.
Proof.
  destruct (Z_le_gt_dec 0 last) as [H|H].
  - pose proof (Z.rem_bound_pos last 256 H ltac:(lia)). lia.
  - pose proof (Z.rem_nonpos last 256 ltac:(lia) ltac:(lia)). lia.
Qed.

Lemma add_beyond_last fuel start len s :
  _last s < start → 0 ≤ start → 0 ≤ len →
  start + len - _last s ≤ Z.of_nat fuel →
  ∃ c',
    add fuel start (Some len) s =
      Some {| _content := c'; _last := start + len;
              length := length s + len;
              didChange := didChange s ++ [(start, len)] |} ∧
    ∀ k, c' !! k = appended (_content s) (_last s) start len !! k ∨
         (_last s < k < start + len ∧ k ≠ start ∧
          c' !! k = Some (if k <? start then _last s else start)).
Proof.
  intros Hgt Hstart Hlen Hfuel. unfold add.
  change (normalize (Some len)) with len.
  destruct (start >? _last s) eqn:E; [|lia].
  cbn [_content _last length didChange _hint]. fold (appended (_content s) (_last s) start len).
  set (c0 := appended (_content s) (_last s) start len).
  assert (Hlast : c0 !! _last s = Some (0 - start)).
  { unfold c0, appended. rewrite !lookup_insert_ne by lia. apply lookup_insert_eq. }
  rewrite Hlast. cbn [Math_abs fmap option_fmap option_map].
  replace (Z.abs (0 - start)) with start by lia.
  replace (_last s + (start + len - _last s)) with (start + len) by lia.
  pose proof (hint_loc_after (_last s)) as Hloc. unfold HINT_SIZE.
  destruct (hint_loop_in_gap (_last s) start (start + len) fuel
              ltac:(lia) ltac:(lia) ltac:(lia) c0
              (_last s - Z.rem (_last s) 256 + 256)) as (c' & Hrun & Hc');
    [lia | lia | |].
  { intros Hlt. unfold c0, appended.
    rewrite lookup_insert_ne by lia. apply lookup_insert_eq. }
  exists c'. rewrite Hrun. cbn. split; [reflexivity|].
  intros k. destruct (Hc' k) as [Hk | (Hr & Hne & Hk)]; [by left|].
  right. repeat split; auto; lia.
Qed.

Lemma add_normalize fuel start len s :
  add fuel start len s = add fuel start (Some (normalize len)) s.
Proof. reflexivity. Qed.

(** * Chains *)

Lemma chain_le c a rs lst : chain c a rs lst → a ≤ lst.
Proof. induction 1; lia. Qed.

Lemma chain_linked c a rs lst : chain c a rs lst → 0 ≤ a → linked c lst a.
Proof.
  induction 1 as [a H | a s e rs lst Ha Has Hs Hse _ IH | a s rs lst Ha Has _ IH];
    intros H0.
  - by apply linked_last.
  - apply (linked_step _ _ a (- s)); [done | lia |].
    replace (Z.abs (- s)) with s by lia.
    apply (linked_step _ _ s e); [done | lia |].
    replace (Z.abs e) with e by lia. apply IH; lia.
  - apply (linked_step _ _ a (- s)); [done | lia |].
    replace (Z.abs (- s)) with s by lia. apply IH; lia.
Qed.

Lemma chain_runs c a rs lst :
  chain c a rs lst →
  ∀ s e, (s, e) ∈ rs → c !! s = Some e ∧ a < s ∧ s < e ∧ e ≤ lst.
Proof.
  induction 1 as [a H | a s e rs lst Ha Has Hs Hse Hch IH | a s rs lst Ha Has Hch IH];
    intros s' e' Hin.
  - by apply elem_of_nil in Hin.
  - apply elem_of_cons in Hin as [[= -> ->] | Hin].
    + apply chain_le in Hch. repeat split; auto; lia.
    + destruct (IH _ _ Hin) as (? & ? & ? & ?). repeat split; auto; lia.
  - destruct (IH _ _ Hin) as (? & ? & ? & ?). repeat split; auto; lia.
Qed.

(** Writing at and beyond the frontier extends a chain. *)
Lemma chain_extend c c' a rs lst tail lst' :
  chain c a rs lst →
  (∀ k, k < lst → c' !! k = c !! k) →
  chain c' lst tail lst' →
  chain c' a (rs ++ tail) lst'.
Proof.
  intros Hch Hsame Htail.
  induction Hch as [a H | a s e rs lst Ha Has Hs Hse Hch IH | a s rs lst Ha Has Hch IH].
  - exact Htail.
  - pose proof (chain_le _ _ _ _ Hch).
    cbn. apply chain_run; auto; try (rewrite Hsame by lia; done).
  - pose proof (chain_le _ _ _ _ Hch).
    apply (chain_skip _ a s); auto. rewrite Hsame by lia; done.
Qed.

Lemma linked_le c lst k : linked c lst k → k ≤ lst.
Proof. induction 1; lia. Qed.

Lemma linked_extend c c' lst lst' k :
  linked c lst k →
  (∀ j, j < lst → c' !! j = c !! j) →
  linked c' lst' lst →
  linked c' lst' k.
Proof.
  intros Hl Hsame Hlst.
  induction Hl as [H | k v Hk Hlt Hl IH]; [exact Hlst|].
  pose proof (linked_le _ _ _ Hl).
  apply (linked_step _ _ k v); auto. rewrite Hsame by lia; done.
Qed.

Lemma total_app rs1 rs2 : total (rs1 ++ rs2) = total rs1 + total rs2.
Proof. induction rs1 as [|r rs1 IH]; cbn; [done|]. fold (total (rs1 ++ rs2)). fold (total rs1). lia. Qed.

(** * More fuel does not change a result *)

Lemma hint_seek_mono fuel :
  ∀ c start next loc r fuel',
    hint_seek fuel c start next loc = Some r → (fuel ≤ fuel')%nat →
    hint_seek fuel' c start next loc = Some r.
Proof.
  induction fuel as [|fuel IH]; intros c start next loc r fuel' Hr Hle.
  - destruct next as [n|]; cbn in Hr;
      [destruct (n <=? loc) eqn:E; [done|] |];
      destruct fuel'; cbn; rewrite ?E; done.
  - destruct fuel' as [|fuel']; [lia|].
    destruct next as [n|]; cbn in *; [|done].
    destruct (n <=? loc); [|done]. eapply IH; [done | lia].
Qed.

Lemma hint_loop_mono fuel :
  ∀ c start next loc lim r fuel',
    hint_loop fuel c start next loc lim = Some r → (fuel ≤ fuel')%nat →
    hint_loop fuel' c start next loc lim = Some r.
Proof.
  induction fuel as [|fuel IH]; intros c start next loc lim r fuel' Hr Hle.
  - cbn in Hr. destruct (loc <? lim) eqn:E; [done|].
    destruct fuel'; cbn; rewrite E; done.
  - destruct fuel' as [|fuel']; [lia|].
    cbn [hint_loop] in *. destruct (loc <? lim); [|done].
    destruct (hint_seek (S fuel) c start next loc) as [[st nx]|] eqn:Hs; [|done].
    rewrite (hint_seek_mono _ _ _ _ _ _ (S fuel') Hs) by lia.
    cbn in *. eapply IH; [done | lia].
Qed.

Lemma add_mono fuel fuel' start len s s' :
  add fuel start len s = Some s' → (fuel ≤ fuel')%nat →
  add fuel' start len s = Some s'.
Proof.
  unfold add. intros H Hle.
  destruct (start >? _last s); cbn [_hint] in *; [|done].
  match type of H with
  | context [hint_loop fuel ?c ?a ?b ?d ?e] =>
      destruct (hint_loop fuel c a b d e) as [c'|] eqn:Hl; [|done];
      rewrite (hint_loop_mono _ _ _ _ _ _ _ fuel' Hl Hle)
  end.
  exact H.
Qed.

(** * The invariant holds of every set a caller can build *)

Lemma Inv_create items : Inv (create items) [].
Proof.
  unfold Inv, create, new_IndexSet; cbn. split; [|split; [done|]].
  - apply chain_end. apply lookup_singleton_eq.
  - intros k v [<- <-]%lookup_singleton_Some. repeat split; try lia.
    right. apply linked_last, lookup_singleton_eq.
Qed.

Lemma Inv_add_merge fuel start len s s' rs :
  start ≤ _last s → add fuel start len s = Some s' → Inv s rs → Inv s' rs.
Proof.
  intros Hle Hadd HI. rewrite add_at_or_below_last in Hadd by done.
  injection Hadd as <-. exact HI.
Qed.

Lemma Inv_add_append fuel start len s s' rs :
  _last s < start → 0 ≤ start → 0 ≤ len →
  add fuel start (Some len) s = Some s' → Inv s rs →
  Inv s' (rs ++ new_run start len) ∧
  _last s' = start + len ∧ length s' = length s + len.
Proof.
  intros Hgt Hstart Hlen Hadd (Hch & Hcard & Hcells).
  set (fuel' := (fuel `max` Z.to_nat (start + len - _last s))%nat).
  apply (add_mono _ fuel') in Hadd; [|lia].
  destruct (add_beyond_last fuel' start len s) as (c' & Hadd' & Hc');
    [lia | lia | lia | lia |].
  rewrite Hadd' in Hadd. injection Hadd as <-.
  unfold Inv. cbn [_content _last length]. split; [|done].
  pose proof (chain_le _ _ _ _ Hch) as Hlast0.
  set (lst := _last s) in *. set (c := _content s) in *.
  set (lim := start + len) in *.
  (* what the new map holds *)
  assert (Hold : ∀ k, k < lst → c' !! k = c !! k).
  { intros k Hk. destruct (Hc' k) as [-> | (? & _)]; [|lia].
    unfold appended. by rewrite !lookup_insert_ne by lia. }
  assert (Hat_last : c' !! lst = Some (- start)).
  { destruct (Hc' lst) as [-> | (? & _)]; [|lia].
    unfold appended. rewrite !lookup_insert_ne by lia.
    rewrite lookup_insert_eq. f_equal; lia. }
  assert (Hat_lim : c' !! lim = Some 0).
  { destruct (Hc' lim) as [-> | (? & _)]; [|lia].
    unfold appended. apply lookup_insert_eq. }
  assert (Hat_start : 0 < len → c' !! start = Some lim).
  { intros Hpos. destruct (Hc' start) as [-> | (_ & ? & _)]; [|done].
    unfold appended. rewrite lookup_insert_ne by lia. apply lookup_insert_eq. }
  assert (Htail : chain c' lst (new_run start len) lim).
  { unfold new_run. destruct (decide (0 < len)) as [Hpos|Hzero].
    - apply (chain_run _ lst start lim); auto; try lia. by apply chain_end.
    - apply (chain_skip _ lst start); auto.
      replace start with lim by lia. by apply chain_end. }
  assert (Hchain' : chain c' 0 (rs ++ new_run start len) lim)
    by (eapply chain_extend; eauto).
  assert (Hl_lst : linked c' lim lst).
  { eapply chain_linked; [exact Htail | lia]. }
  assert (Hl_lim : linked c' lim lim) by (by apply linked_last).
  assert (Hl_start : linked c' lim start).
  { destruct (decide (0 < len)) as [Hpos|Hzero].
    - apply (linked_step _ _ start lim); [auto | lia |].
      replace (Z.abs lim) with lim by lia. done.
    - replace start with lim by lia. done. }
  split; [exact Hchain'|]. split.
  { rewrite total_app, Hcard. unfold new_run.
    destruct (decide (0 < len)); cbn; lia. }
  intros k v Hkv.
  destruct (Hc' k) as [Hk | (Hr & Hne & Hk)].
  - rewrite Hk in Hkv. unfold appended in Hkv.
    destruct (decide (k = lim)) as [->|Hk1].
    { rewrite lookup_insert_eq in Hkv. injection Hkv as <-.
      repeat split; try lia. right.
      eapply chain_linked; [exact Hchain' | lia]. }
    rewrite lookup_insert_ne in Hkv by done.
    destruct (decide (k = start)) as [->|Hk2].
    { rewrite lookup_insert_eq in Hkv. injection Hkv as <-.
      repeat split; try lia; [by right|].
      right. apply elem_of_app. right. unfold new_run.
      destruct (decide (0 < len)); [by apply list_elem_of_singleton | lia]. }
    rewrite lookup_insert_ne in Hkv by done.
    destruct (decide (k = lst)) as [->|Hk3].
    { rewrite lookup_insert_eq in Hkv. injection Hkv as <-.
      repeat split; lia. }
    rewrite lookup_insert_ne in Hkv by done.
    destruct (Hcells k v Hkv) as (Hb & Hv & Hr).
    repeat split; try lia.
    + destruct Hv as [?|Hv]; [by left|]. right.
      eapply linked_extend; eauto.
    + destruct Hr as [?|Hr]; [by left|]. right. apply elem_of_app. by left.
  - rewrite Hk in Hkv. injection Hkv as <-.
    destruct (k <? start) eqn:E; repeat split; try lia; try (by right).
Qed.

Lemma reachable_Inv s : reachable s → ∃ rs, Inv s rs.
Proof.
  induction 1 as [items | s fuel start len s' _ [rs IH] Hstart Hlen Hadd].
  - exists []. apply Inv_create.
  - destruct (decide (start ≤ _last s)) as [Hle|Hgt].
    + exists rs. eapply Inv_add_merge; eauto.
    + rewrite add_normalize in Hadd.
      exists (rs ++ new_run start (normalize len)).
      eapply Inv_add_append; eauto. lia.
Qed.

(** * Enumeration *)

Lemma next_range_chain c a rs lst :
  chain c a rs lst → 0 ≤ a →
  ∀ fuel z, Z.abs z = a → lst - a ≤ Z.of_nat fuel →
  next_range fuel c z = Some (first_stop rs lst).
Proof.
  induction 1 as [a H | a s e rs lst Ha Has Hs Hse Hch IH | a s rs lst Ha Has Hch IH];
    intros H0 fuel z Hz Hfuel.
  - destruct fuel; cbn; rewrite Hz, H; done.
  - pose proof (chain_le _ _ _ _ Hch).
    destruct fuel as [|fuel]; [lia|]. cbn. rewrite Hz, Ha.
    destruct (- s <? 0) eqn:E; [|lia].
    destruct fuel; cbn; replace (Z.abs (- s)) with s by lia; rewrite Hs;
      (destruct (e <? 0) eqn:E'; [lia | done]).
  - pose proof (chain_le _ _ _ _ Hch).
    destruct fuel as [|fuel]; [lia|]. cbn. rewrite Hz, Ha.
    destruct (- s <? 0) eqn:E; [|lia].
    apply IH; lia.
Qed.

Lemma nextObject_seed fuel s ctx :
  nextObject fuel s None ctx =
    '(i, n) ← next_range fuel (_content s) 0; Some (Some i, n).
Proof. unfold nextObject. destruct (decide (Some 0 = Some 0)); done. Qed.

Lemma nextObject_crossing fuel s e :
  e - 1 < _last s →
  nextObject fuel s (Some (e - 1)) (Some e) =
    '(i, n) ← next_range fuel (_content s) e; Some (Some i, n).
Proof.
  intros Hlt. unfold nextObject.
  destruct (e - 1 >=? _last s) eqn:E; [lia|].
  replace (e - 1 + 1) with e by lia.
  destruct (decide (Some e = Some e)); done.
Qed.

Lemma nextObject_inside fuel s i e :
  i < _last s → i + 1 ≠ e →
  nextObject fuel s (Some i) (Some e) = Some (Some (i + 1), Some e).
Proof.
  intros Hlt Hne. unfold nextObject.
  destruct (i >=? _last s) eqn:E; [lia|].
  destruct (decide (Some (i + 1) = Some e)) as [[=]|]; done.
Qed.

Lemma nextObject_finished fuel s i ctx :
  _last s ≤ i → nextObject fuel s (Some i) ctx = Some (None, ctx).
Proof.
  intros Hle. unfold nextObject. destruct (i >=? _last s) eqn:E; [done|lia].
Qed.

Lemma drive_chain s a rs :
  chain (_content s) a rs (_last s) → 0 ≤ a →
  ∀ calls fuel idx ctx,
    _last s - a ≤ Z.of_nat fuel →
    _last s - a + 2 ≤ Z.of_nat calls →
    nextObject fuel s idx ctx =
      ('(i, n) ← next_range fuel (_content s) a; Some (Some i, n)) →
    drive calls fuel s idx ctx = Some (indices rs ++ [_last s]).
Proof.
  remember (_content s) as c eqn:Hc. remember (_last s) as lst eqn:Hlst.
  induction 1 as [a H | a s0 e rs lst Ha Has Hs Hse Hch IH | a s0 rs lst Ha Has Hch IH];
    intros H0 calls fuel idx ctx Hfuel Hcalls Hnext.
  - destruct calls as [|calls]; [lia|]. cbn [drive]. rewrite Hnext.
    rewrite (next_range_chain c a [] a) by (auto using chain_end; lia).
    cbn. destruct calls as [|calls]; [lia|]. cbn [drive].
    rewrite nextObject_finished by lia. done.
  - pose proof (chain_le _ _ _ _ Hch) as Hle.
    assert (Hrun : ∀ n i calls,
      Z.of_nat n = e - 1 - i → s0 ≤ i →
      lst - e + 2 + Z.of_nat n ≤ Z.of_nat calls →
      drive calls fuel s (Some i) (Some e) =
        Some (seqZ (i + 1) (e - 1 - i) ++ indices rs ++ [lst])).
    { induction n as [|n IHn]; intros i calls' Hn Hi Hc'.
      - replace (e - 1 - i) with 0 by lia. cbn.
        replace i with (e - 1) by lia.
        apply IH; auto; try lia.
        rewrite nextObject_crossing by lia. by rewrite Hc.
      - destruct calls' as [|calls']; [lia|]. cbn [drive].
        rewrite nextObject_inside by lia. cbn.
        rewrite (IHn (i + 1)) by lia. cbn.
        rewrite (seqZ_cons (i + 1)) by lia.
        replace (Z.succ (i + 1)) with (i + 1 + 1) by lia.
        replace (Z.pred (e - 1 - i)) with (e - 1 - (i + 1)) by lia. done. }
    destruct calls as [|calls]; [lia|]. cbn [drive]. rewrite Hnext.
    rewrite (next_range_chain c a ((s0, e) :: rs) lst)
      by (eauto using chain_run; lia).
    cbn. rewrite (Hrun (Z.to_nat (e - 1 - s0))) by lia. cbn.
    rewrite (seqZ_cons s0) by lia. rewrite <- app_assoc.
    replace (Z.succ s0) with (s0 + 1) by lia.
    replace (Z.pred (e - s0)) with (e - 1 - s0) by lia. done.
  - pose proof (chain_le _ _ _ _ Hch) as Hle.
    apply IH; auto; try lia.
    rewrite Hnext.
    rewrite (next_range_chain c a rs lst) by (eauto using chain_skip; lia).
    rewrite (next_range_chain c s0 rs lst) by (auto; lia). done.
Qed.

Lemma enumerate_Inv s rs fuel :
  Inv s rs → _last s + 2 ≤ Z.of_nat fuel →
  enumerate fuel s = Some (indices rs ++ [_last s]).
Proof.
  intros (Hch & _) Hfuel. unfold enumerate.
  apply (drive_chain s 0 rs); [done | lia | lia | lia | apply nextObject_seed].
Qed.

Lemma total_indices c a rs lst :
  chain c a rs lst → Z.of_nat (List.length (indices rs)) = total rs.
Proof.
  induction 1 as [a H | a s e rs lst Ha Has Hs Hse Hch IH | a s rs lst Ha Has Hch IH];
    [done | | done].
  cbn. rewrite length_app, length_seqZ.
  fold (indices rs). fold (total rs). lia.
Qed.

Lemma elem_of_indices rs i :
  i ∈ indices rs ↔ ∃ s e, (s, e) ∈ rs ∧ s ≤ i < e.
Proof.
  induction rs as [|[s e] rs IH].
  - split; [by intros ?%elem_of_nil | by intros (? & ? & ?%elem_of_nil & _)].
  - change (indices ((s, e) :: rs)) with (seqZ s (e - s) ++ indices rs).
    rewrite elem_of_app, elem_of_seqZ, IH. split.
    + intros [Hi | (a & b & Hin & Hi)].
      * exists s, e. split; [apply elem_of_cons; by left | lia].
      * exists a, b. split; [apply elem_of_cons; by right | done].
    + intros (a & b & [[= -> ->] | Hin]%elem_of_cons & Hi).
      * left. lia.
      * right. eauto.
Qed.

Lemma present_Inv s rs i :
  Inv s rs → present s i ↔ ∃ a b, (a, b) ∈ rs ∧ a ≤ i < b.
Proof.
  intros (Hch & _ & Hcells). split.
  - intros (k & e & [Hk Hlt] & Hi). exists k, e. split; [|done].
    destruct (Hcells k e Hk) as (_ & _ & [?|?]); [lia | done].
  - intros (a & b & Hin & Hi).
    destruct (chain_runs _ _ _ _ Hch a b Hin) as (Hk & _ & Hlt & _).
    exists a, b. repeat split; auto; lia.
Qed.

(** * Lookup *)

Lemma chain_end_mark c a rs lst : chain c a rs lst → c !! lst = Some 0.
Proof. induction 1; auto. Qed.

(** Once the walk stands on a key from which the frontier is reached,
    it stops. *)
Lemma walk_linked c lst index n :
  linked c lst n → 0 ≤ n → index < lst →
  ∀ fuel ret, lst - n ≤ Z.of_nat fuel →
  ∃ r, rangeStart_walk fuel c index ret (Some n) = Some r.
Proof.
  induction 1 as [H | k v Hk Hlt Hl IH]; intros H0 Hi fuel ret Hfuel.
  - exists ret. destruct fuel; cbn;
      (destruct (lst <? index) eqn:E; [lia | done]).
  - pose proof (linked_le _ _ _ Hl).
    destruct fuel as [|fuel]; [lia|]. cbn.
    destruct (k <? index) eqn:E; [|by eexists].
    rewrite Hk. cbn. apply IH; lia.
Qed.

Lemma rangeStartForIndex_total s rs index fuel :
  Inv s rs → 0 ≤ index → _last s ≤ Z.of_nat fuel →
  ∃ r, rangeStartForIndex fuel s index = Some r.
Proof.
  intros (Hch & _ & Hcells) Hi Hfuel. unfold rangeStartForIndex.
  destruct (index >=? _last s) eqn:E; [by eexists|].
  destruct (js_gt (_content s !! index) (Some 0)); [by eexists|].
  set (c := _content s) in *. set (lst := _last s) in *.
  assert (H0 : linked c lst 0) by (eapply chain_linked; [exact Hch | lia]).
  destruct (c !! (index - index `rem` 256)) as [v|] eqn:Hbase; cbn;
    [|destruct fuel; by eexists].
  destruct (c !! v) as [w|] eqn:Hv; cbn; [|destruct fuel; by eexists].
  destruct (Hcells _ _ Hbase) as (_ & [Hneg | Hl] & _).
  { destruct (Hcells _ _ Hv) as (? & _). lia. }
  inversion Hl as [Hend | k v' Hk Hlt Hl']; subst.
  - rewrite Hend in Hv. injection Hv as <-. cbn.
    apply (walk_linked c lst index 0); auto; lia.
  - rewrite Hk in Hv. injection Hv as <-.
    pose proof (linked_le _ _ _ Hl').
    apply (walk_linked c lst index (Z.abs v')); auto; lia.
Qed.

Lemma contains_total s rs start len fuel :
  Inv s rs → 0 ≤ start → _last s ≤ Z.of_nat fuel →
  ∃ b, contains fuel s start len = Some b.
Proof.
  intros HI Hs Hfuel. unfold contains.
  destruct (rangeStartForIndex_total s rs start fuel HI Hs Hfuel) as [r ->].
  cbn. by eexists.
Qed.

(** An answer [true] names an occupied range that covers the span. *)
Lemma contains_true s rs start len fuel :
  Inv s rs → 0 ≤ start → 0 ≤ len →
  contains fuel s start (Some len) = Some true →
  ∃ k e, present_run s k e ∧ k ≤ start ∧ start + len ≤ e.
Proof.
  intros (Hch & _ & Hcells) Hs Hlen. unfold contains.
  change (normalize (Some len)) with len.
  destruct (rangeStartForIndex fuel s start) as [[k|]|]; cbn; [|done|done].
  destruct (_content s !! k) as [e|] eqn:Hk; cbn; [|done].
  intros [= H]. apply andb_prop in H as [H H3]. apply andb_prop in H as [H1 H2].
  exists k, e. split; [|lia]. split; [done|].
  destruct (Hcells _ _ Hk) as (_ & _ & [Hle | Hin]).
  - (* a cell that holds its own key does not exist *)
    assert (e = k) as -> by lia.
    destruct (Hcells _ _ Hk) as (_ & [? | Hl] & _); [lia|].
    inversion Hl as [Hend | k' v' Hk' Hlt Hl']; subst.
    + rewrite Hend in Hk. injection Hk as Heq. lia.
    + rewrite Hk in Hk'. injection Hk' as Heq. lia.
  - by destruct (chain_runs _ _ _ _ Hch _ _ Hin) as (_ & _ & ? & _).
Qed.

(** At the first index of an occupied range the answer is exact. *)
Lemma contains_at_run_start s rs start len e fuel :
  Inv s rs → 0 ≤ start → present_run s start e →
  contains fuel s start (Some len) = Some (start + len <=? e).
Proof.
  intros (Hch & _ & Hcells) Hs [Hk Hlt]. unfold contains, rangeStartForIndex.
  change (normalize (Some len)) with len.
  destruct (Hcells _ _ Hk) as (_ & _ & [? | Hin]); [lia|].
  destruct (chain_runs _ _ _ _ Hch _ _ Hin) as (_ & _ & _ & Hle).
  destruct (start >=? _last s) eqn:E; [lia|].
  rewrite Hk. cbn. destruct (0 <? e) eqn:E0; [|lia]. cbn. rewrite Hk. cbn.
  rewrite E0. destruct (start <=? start) eqn:E1; [|lia]. done.
Qed.

(** At and after the frontier the answer is [false], whatever the
    length. *)
Lemma contains_beyond_last s rs start len fuel :
  Inv s rs → _last s ≤ start →
  contains fuel s start len = Some false.
Proof.
  intros (Hch & _) Hle. unfold contains, rangeStartForIndex.
  destruct (start >=? _last s) eqn:E; [|lia]. cbn.
  rewrite (chain_end_mark _ _ _ _ Hch). done.
Qed.

(** * Order of the enumeration *)

Lemma seqZ_sorted (n : nat) : ∀ m, StronglySorted Z.lt (seqZ m (Z.of_nat n)).
Proof.
  induction n as [|n IH]; intros m; [constructor|].
  rewrite seqZ_S. apply StronglySorted_app_2; auto.
  - intros x1 x2 Hx1%elem_of_seqZ Hx2%list_elem_of_singleton. lia.
  - repeat constructor.
Qed.

Lemma indices_sorted c a rs lst :
  chain c a rs lst →
  StronglySorted Z.lt (indices rs) ∧ ∀ i, i ∈ indices rs → a < i < lst.
Proof.
  induction 1 as [a H | a s e rs lst Ha Has Hs Hse Hch [IH1 IH2] | a s rs lst Ha Has Hch [IH1 IH2]].
  - split; [constructor | by intros i ?%elem_of_nil].
  - pose proof (chain_le _ _ _ _ Hch).
    change (indices ((s, e) :: rs)) with (seqZ s (e - s) ++ indices rs). split.
    + apply StronglySorted_app_2; auto.
      * intros x1 x2 Hx1%elem_of_seqZ Hx2%IH2. lia.
      * replace (e - s) with (Z.of_nat (Z.to_nat (e - s))) by lia.
        apply seqZ_sorted.
    + intros i [Hi%elem_of_seqZ | Hi%IH2]%elem_of_app; lia.
  - split; [done|]. intros i Hi%IH2. lia.
Qed.

(** * The claims *)

(** Two sets with the same cells have the same present indices. *)
Lemma present_ext s1 s2 i :
  _content s1 = _content s2 → present s1 i ↔ present s2 i.
Proof. unfold present, present_run. by intros ->. Qed.

(** The set left by [add(5, 5)] on the empty set. *)
Lemma add_5_5 fuel :
  add fuel 5 (Some 5) (create None) =
    Some {| _content := appended {[ 0 := 0 ]} 0 5 5; _last := 10; length := 5;
            didChange := [(5, 5)] |}.
Proof. apply (add_mono 0); [|lia]. by vm_compute. Qed.

(** C10.  A call [add(start, length)] with [start] at or below the
    frontier [_last] leaves the boundary map [_content], the frontier and
    the cardinality [length] as they were: the branch that would merge is
    empty and [_hint], called with two undefined arguments, enters no
    loop.  The one effect is the change hook, which receives the start
    and the normalised length of the call. *)
Theorem add_within_frontier_only_notifies fuel start len s :
  start ≤ _last s →
  ∃ s',
    add fuel start len s = Some s' ∧
    _content s' = _content s ∧ _last s' = _last s ∧ length s' = length s ∧
    didChange s' = didChange s ++ [(start, normalize len)].
Proof.
  intros Hle. eexists. split; [by apply add_at_or_below_last|]. done.
Qed.

Lemma add_within_frontier_only_notifies_witness :
  let s := {| _content := appended {[ 0 := 0 ]} 0 5 5; _last := 10;
              length := 5; didChange := [(5, 5)] |} in
  ∃ s',
    add 0 7 (Some 2) s = Some s' ∧
    _content s' = _content s ∧ _last s' = _last s ∧ length s' = length s ∧
    didChange s' = didChange s ++ [(7, normalize (Some 2))].
Proof.
  intros s. apply (add_within_frontier_only_notifies 0 7 (Some 2) s).
  cbn. lia.
Defined.

(** C9.  For every set and every valid range, a second [add(s, l)] right
    after the first changes nothing: the first call returns (given fuel
    for its hint pass), the second returns too, and boundary map,
    frontier and cardinality, hence the present indices, are those the
    first call left. *)
Theorem add_twice_same_as_once fuel start len s :
  0 ≤ start → 0 ≤ normalize len →
  start + normalize len - _last s ≤ Z.of_nat fuel →
  ∃ s1 s2,
    add fuel start len s = Some s1 ∧ add fuel start len s1 = Some s2 ∧
    _content s2 = _content s1 ∧ _last s2 = _last s1 ∧
    length s2 = length s1 ∧ ∀ i, present s2 i ↔ present s1 i.
Proof.
  intros Hstart Hlen Hfuel.
  assert (∃ s1, add fuel start len s = Some s1 ∧ start ≤ _last s1)
    as (s1 & Hadd1 & Hle).
  { destruct (decide (start ≤ _last s)) as [Hle|Hgt].
    - eexists. split; [by apply add_at_or_below_last|]. done.
    - rewrite add_normalize.
      destruct (add_beyond_last fuel start (normalize len) s)
        as (c' & -> & _); [lia | lia | lia | lia |].
      eexists. split; [done|]. cbn. lia. }
  exists s1. eexists. split; [done|].
  split; [by apply add_at_or_below_last|]. cbn. done.
Qed.

Lemma add_twice_same_as_once_witness :
  ∃ s1 s2,
    add 10 5 (Some 5) (create None) = Some s1 ∧
    add 10 5 (Some 5) s1 = Some s2 ∧
    _content s2 = _content s1 ∧ _last s2 = _last s1 ∧
    length s2 = length s1 ∧ ∀ i, present s2 i ↔ present s1 i.
Proof.
  apply (add_twice_same_as_once 10 5 (Some 5) (create None)); cbn; lia.
Defined.

(** An append, cell by cell.  For every set and every valid range whose
    start is strictly beyond the frontier, [add] returns (given fuel for
    its hint pass) and has written: at the old frontier the start of an
    absent range that ends at [start]; at [start], when the length is
    positive, the start of an occupied range that ends at
    [start + length]; at [start + length] the end mark.  The frontier is
    [start + length], the cardinality has grown by [length], the cells
    below the old frontier are untouched and the hook has received the
    call. *)
Theorem add_beyond_frontier_appends fuel start len s :
  _last s < start → 0 ≤ start → 0 ≤ len →
  start + len - _last s ≤ Z.of_nat fuel →
  ∃ s',
    add fuel start (Some len) s = Some s' ∧
    _content s' !! _last s = Some (- start) ∧
    (0 < len → _content s' !! start = Some (start + len)) ∧
    _content s' !! (start + len) = Some 0 ∧
    (∀ k, k < _last s → _content s' !! k = _content s !! k) ∧
    _last s' = start + len ∧
    length s' = length s + len ∧
    didChange s' = didChange s ++ [(start, len)].
Proof.
  intros Hgt Hstart Hlen Hfuel.
  destruct (add_beyond_last fuel start len s) as (c' & -> & Hc'); auto.
  eexists. split; [done|]. cbn.
  assert (Hcell : ∀ k, (k ≤ _last s ∨ k = start ∨ k = start + len) →
            c' !! k = appended (_content s) (_last s) start len !! k).
  { intros k Hk. destruct (Hc' k) as [-> | (? & ? & _)]; [done | lia]. }
  unfold appended in Hcell. repeat split.
  - rewrite Hcell by lia. rewrite !lookup_insert_ne by lia.
    rewrite lookup_insert_eq. f_equal; lia.
  - intros Hpos. rewrite Hcell by lia. rewrite lookup_insert_ne by lia.
    apply lookup_insert_eq.
  - rewrite Hcell by lia. apply lookup_insert_eq.
  - intros k Hk. rewrite Hcell by lia. by rewrite !lookup_insert_ne by lia.
Qed.

Lemma add_beyond_frontier_appends_witness :
  ∃ s',
    add 10 5 (Some 5) (create None) = Some s' ∧
    _content s' !! _last (create None) = Some (- 5) ∧
    (0 < 5 → _content s' !! 5 = Some (5 + 5)) ∧
    _content s' !! (5 + 5) = Some 0 ∧
    (∀ k, k < _last (create None) →
          _content s' !! k = _content (create None) !! k) ∧
    _last s' = 5 + 5 ∧
    length s' = length (create None) + 5 ∧
    didChange s' = didChange (create None) ++ [(5, 5)].
Proof.
  apply (add_beyond_frontier_appends 10 5 5 (create None)); cbn; lia.
Defined.

(** C6, evaluated.  With [start] equal to the frontier [add] takes the
    branch commented as the merge, whose body is empty: on the empty set
    [add(0, 5)] returns with the cell at 0 still the end mark, the
    frontier still 0 and the cardinality still 0; after [add(5, 5)],
    [add(10, 5)] returns with the cell at 10 still the end mark, the
    frontier still 10 and the cardinality still 5.  Only the hook is
    called. *)
Theorem add_at_frontier_appends_nothing fuel :
  (∃ s',
     add fuel 0 (Some 5) (create None) = Some s' ∧
     _content s' !! 0 = Some 0 ∧ _content s' !! 0 ≠ Some (0 + 5) ∧
     _last s' = 0 ∧ _last s' ≠ 0 + 5 ∧
     length s' = 0 ∧ length s' ≠ length (create None) + 5 ∧
     didChange s' = [(0, 5)]) ∧
  (∃ s',
     add fuel 10 (Some 5) one_run = Some s' ∧
     _content s' !! 10 = Some 0 ∧ _content s' !! 10 ≠ Some (10 + 5) ∧
     _last s' = 10 ∧ length s' = 5 ∧
     didChange s' = [(5, 5); (10, 5)]).
Proof.
  split; eexists; (split; [by apply add_at_or_below_last|]); by vm_compute.
Qed.

(** C5, as the code has it.  [add] checks neither argument and has no
    failing path.  On a set whose frontier is not negative (every set
    built by valid calls) a call with a negative start returns the
    receiver with boundary map, frontier and cardinality unchanged, and
    the change hook is called all the same. *)
Theorem add_negative_start_returns_unchanged fuel start len s :
  start < 0 → 0 ≤ _last s →
  ∃ s',
    add fuel start len s = Some s' ∧
    _content s' = _content s ∧ _last s' = _last s ∧ length s' = length s ∧
    didChange s' = didChange s ++ [(start, normalize len)].
Proof.
  intros Hneg Hlast. eexists. split; [apply add_at_or_below_last; lia|].
  done.
Qed.

Lemma add_negative_start_returns_unchanged_witness :
  ∃ s',
    add 0 (-1) (Some 5) (create None) = Some s' ∧
    _content s' = _content (create None) ∧ _last s' = _last (create None) ∧
    length s' = length (create None) ∧
    didChange s' = didChange (create None) ++ [(-1, normalize (Some 5))].
Proof.
  apply (add_negative_start_returns_unchanged 0 (-1) (Some 5) (create None));
    cbn; lia.
Defined.

(** C5 as stated fails: [add(5, -3)] on the empty set returns and has
    changed the set (frontier 2, cardinality -3, cells written at 0, 2
    and 5), and [add(-1, 5)] returns as any other call does, the hook
    called. *)
Lemma add_negative_length_is_applied :
  (∃ s',
     add 10 5 (Some (-3)) (create None) = Some s' ∧
     _content s' ≠ _content (create None) ∧
     _last s' = 2 ∧ length s' = -3) ∧
  (∃ s', add 10 (-1) (Some 5) (create None) = Some s' ∧
         didChange s' = [(-1, 5)]).
Proof.
  split; eexists; (split; [reflexivity|]); [|done].
  split; [|done]. intros H.
  apply (f_equal (λ c : gmap Z Z, c !! 5)) in H. by vm_compute in H.
Qed.

(** C1, evaluated.  On the empty set [add(0, 5)] then [add(5, 5)]: the
    first call takes the empty merge branch; the second appends.  The
    set holds an absent range from 0 to 5 and the occupied range from 5
    to 10, with cardinality 5: index 0 is not present.  Below the
    frontier likewise: after [add(10, 5)], [add(3, 2)] leaves cardinality
    5 and index 3 absent. *)
Theorem add_merge_branch_adds_nothing fuel :
  (∃ s1 s2,
     add fuel 0 (Some 5) (create None) = Some s1 ∧
     add fuel 5 (Some 5) s1 = Some s2 ∧
     _content s2 !! 0 = Some (- 5) ∧ _content s2 !! 5 = Some 10 ∧
     _last s2 = 10 ∧ length s2 = 5 ∧
     ∀ i, present s2 i ↔ 5 ≤ i < 10) ∧
  (∃ s1 s2,
     add fuel 10 (Some 5) (create None) = Some s1 ∧
     add fuel 3 (Some 2) s1 = Some s2 ∧
     _last s1 = 15 ∧ length s2 = 5 ∧ ¬ present s2 3).
Proof.
  split.
  - set (s1 := {| _content := {[ 0 := 0 ]}; _last := 0; length := 0;
                  didChange := [(0, 5)] |}).
    set (s2 := {| _content := appended {[ 0 := 0 ]} 0 5 5; _last := 10;
                  length := 5; didChange := [(0, 5); (5, 5)] |}).
    assert (Hadd : ∀ f, add f 5 (Some 5) s1 = Some s2).
    { intros f. apply (add_mono 0); [by vm_compute | lia]. }
    assert (HI : Inv s2 [(5, 10)]).
    { apply (Inv_add_append 0 5 5 s1 s2 []);
        [done | done | done | apply Hadd | apply (Inv_create None)]. }
    exists s1, s2. split; [by apply add_at_or_below_last|].
    split; [apply Hadd|]. do 4 (split; [done|]). intros i.
    rewrite (present_Inv _ _ _ HI). split.
    + intros (a & b & Hin%list_elem_of_singleton & Hi).
      injection Hin as -> ->. lia.
    + intros Hi. exists 5, 10. split; [by apply list_elem_of_singleton | lia].
  - set (s1 := {| _content := appended {[ 0 := 0 ]} 0 10 5; _last := 15;
                  length := 5; didChange := [(10, 5)] |}).
    assert (Hadd : ∀ f, add f 10 (Some 5) (create None) = Some s1).
    { intros f. apply (add_mono 0); [by vm_compute | lia]. }
    assert (HI : Inv s1 [(10, 15)]).
    { apply (Inv_add_append 0 10 5 (create None) s1 []);
        [done | done | done | apply Hadd | apply Inv_create]. }
    exists s1. eexists. split; [apply Hadd|].
    split; [by apply add_at_or_below_last|].
    do 2 (split; [done|]).
    rewrite (present_ext _ s1) by done. rewrite (present_Inv _ _ _ HI).
    intros (a & b & Hin%list_elem_of_singleton & Hi).
    injection Hin as -> ->. lia.
Qed.

(** C2, evaluated.  After [add(5, 5)] on the empty set the occupied
    range from 5 to 10 contains index 7, and [rangeStartForIndex(7)]
    returns -5: the cell at the hint position 0 is the start of the
    absent range, its value -5 is taken as it is, without its magnitude,
    and no cell is found at -5.  After [add(5, 1000)] the hint written at
    256 is positive, so [rangeStartForIndex(256)] takes the hint position
    for the start of a range and returns 256, inside the range from 5 to
    1005. *)
Theorem rangeStartForIndex_misses_the_range fuel :
  (∃ s, add fuel 5 (Some 5) (create None) = Some s ∧
        present_run s 5 10 ∧
        rangeStartForIndex fuel s 7 = Some (Some (- 5))) ∧
  (∃ s, add (3 + fuel) 5 (Some 1000) (create None) = Some s ∧
        present_run s 5 1005 ∧ _content s !! 256 = Some 5 ∧
        rangeStartForIndex fuel s 256 = Some (Some 256)).
Proof.
  split.
  - eexists. split; [apply add_5_5|]. split; [split; done|].
    destruct fuel; by vm_compute.
  - eexists. split; [apply (add_mono 3); [by vm_compute | lia]|].
    split; [split; done|]. split; [done|].
    destruct fuel; by vm_compute.
Qed.

(** C8, evaluated.  The constructor does not read its argument: whatever
    collection is passed, the set is the empty one, with frontier 0,
    cardinality 0 and no present index; [contains(3)] is false on the
    set created from the collection holding 3. *)
Theorem create_does_not_read_items items fuel :
  create items = create None ∧
  _last (create items) = 0 ∧ length (create items) = 0 ∧
  (∀ i, ¬ present (create items) i) ∧
  contains fuel (create (Some [3])) 3 None = Some false.
Proof.
  do 3 (split; [done|]). split.
  - intros i. rewrite (present_Inv _ _ _ (Inv_create items)).
    by intros (a & b & ?%elem_of_nil & _).
  - destruct fuel; by vm_compute.
Qed.

(** C4, evaluated.  The prototype defines no [remove]: the name is
    missing from its methods while [add] is there, so a set that [add]
    has filled cannot be emptied again. *)
Theorem remove_is_not_defined fuel :
  prototype !! "remove"%string = None ∧
  prototype !! "add"%string = Some m_add ∧
  ∃ s, add fuel 5 (Some 5) (create None) = Some s ∧ length s = 5.
Proof.
  split; [by vm_compute|]. split; [by vm_compute|].
  eexists. split; [apply add_5_5 | done].
Qed.

(** C3, as the code has it.  For every set built by valid calls of
    [add], driving [nextObject] from the start sentinel to the terminal
    sentinel returns (given fuel for the frontier plus two calls) and
    yields the present indices, each once and in increasing order, as
    many as the cardinality [length], followed by one more value, the
    frontier. *)
Theorem enumerate_yields_present_then_frontier s :
  reachable s →
  ∃ l,
    (∀ fuel, _last s + 2 ≤ Z.of_nat fuel →
             enumerate fuel s = Some (l ++ [_last s])) ∧
    Z.of_nat (List.length l) = length s ∧
    (∀ i, i ∈ l ↔ present s i) ∧
    StronglySorted Z.lt (l ++ [_last s]).
Proof.
  intros [rs HI]%reachable_Inv. exists (indices rs).
  pose proof HI as (Hch & Hcard & _).
  destruct (indices_sorted _ _ _ _ Hch) as [Hsorted Hbound].
  split; [|split; [|split]].
  - intros fuel Hfuel. by apply enumerate_Inv.
  - rewrite Hcard. eapply total_indices; eauto.
  - intros i. rewrite (present_Inv _ _ _ HI). apply elem_of_indices.
  - apply StronglySorted_app_2; auto.
    + intros x1 x2 Hx1%Hbound Hx2%list_elem_of_singleton. lia.
    + repeat constructor.
Qed.

Lemma enumerate_yields_present_then_frontier_witness :
  let s := {| _content := appended {[ 0 := 0 ]} 0 5 5; _last := 10;
              length := 5; didChange := [(5, 5)] |} in
  ∃ l,
    (∀ fuel, _last s + 2 ≤ Z.of_nat fuel →
             enumerate fuel s = Some (l ++ [_last s])) ∧
    Z.of_nat (List.length l) = length s ∧
    (∀ i, i ∈ l ↔ present s i) ∧
    StronglySorted Z.lt (l ++ [_last s]).
Proof.
  intros s. apply (enumerate_yields_present_then_frontier s).
  apply (reachable_add (create None) 0 5 (Some 5) s (reachable_create None)).
  - lia.
  - cbn. lia.
  - reflexivity.
Defined.

(** C3 as stated fails on the empty set: the enumeration from the start
    sentinel to the terminal sentinel yields one value, 0, and the
    cardinality is 0. *)
Lemma enumerate_empty_set_yields_frontier :
  enumerate 2 (create None) = Some [0] ∧
  Z.of_nat (List.length [0]) ≠ length (create None).
Proof. split; [reflexivity | by vm_compute]. Qed.

(** C7 as stated fails for the empty span: on the empty set
    [contains(0, 0)] is false; and after [add(5, 5)], [contains(12, 0)],
    beyond the frontier, and [contains(3, 0)], inside the absent range
    before the first occupied one, are false as well. *)
Lemma contains_empty_span_is_false :
  contains 0 (create None) 0 (Some 0) = Some false ∧
  contains 0 one_run 12 (Some 0) = Some false ∧
  contains 0 one_run 3 (Some 0) = Some false.
Proof. by vm_compute. Qed.

(** * Further properties of the representation *)

Lemma total_bounds c a rs lst :
  chain c a rs lst → 0 ≤ total rs ≤ lst - a.
Proof.
  induction 1 as [a H | a s e rs lst Ha Has Hs Hse Hch IH | a s rs lst Ha Has Hch IH];
    cbn; [lia | | lia].
  fold (total rs). lia.
Qed.

Lemma chain_separated c a rs lst :
  chain c a rs lst →
  ∀ k1 e1 k2 e2, (k1, e1) ∈ rs → (k2, e2) ∈ rs → k1 < k2 → e1 < k2.
Proof.
  induction 1 as [a H | a s e rs lst Ha Has Hs Hse Hch IH | a s rs lst Ha Has Hch IH];
    intros k1 e1 k2 e2 H1 H2 Hlt.
  - by apply elem_of_nil in H1.
  - apply elem_of_cons in H1 as [[= -> ->] | H1];
      apply elem_of_cons in H2 as [[= -> ->] | H2].
    + lia.
    + by destruct (chain_runs _ _ _ _ Hch _ _ H2) as (_ & ? & _).
    + destruct (chain_runs _ _ _ _ Hch _ _ H1) as (_ & ? & ? & _). lia.
    + eauto.
  - eauto.
Qed.

(** No cell of a set a caller can build holds its own key, but the cell
    of the empty set at 0. *)
Lemma no_self_cell s rs k :
  Inv s rs → _content s !! k = Some k → k = 0.
Proof.
  intros (Hch & _ & Hcells) Hk.
  destruct (Hcells _ _ Hk) as (Hb & [? | Hl] & _); [lia|].
  inversion Hl as [Hend | k' v' Hk' Hlt Hl']; subst.
  - rewrite Hend in Hk. by injection Hk.
  - rewrite Hk in Hk'. injection Hk' as Heq. lia.
Qed.

(** X1.  In every set built by valid calls of [add] the cells lie
    between 0 and the frontier, the cell at the frontier holds the end
    mark 0, the cell at 0 holds no positive value, and the cardinality
    lies between 0 and the frontier. *)
Theorem reachable_cells_within_frontier s :
  reachable s →
  (∀ k v, _content s !! k = Some v → 0 ≤ k ≤ _last s) ∧
  _content s !! _last s = Some 0 ∧
  (∃ v, _content s !! 0 = Some v ∧ v ≤ 0) ∧
  0 ≤ length s ≤ _last s.
Proof.
  intros [rs (Hch & Hcard & Hcells)]%reachable_Inv.
  split; [|split; [|split]].
  - intros k v Hk. by destruct (Hcells _ _ Hk) as (? & _).
  - eapply chain_end_mark; eauto.
  - inversion Hch; subst; eexists; (split; [done | lia]).
  - pose proof (total_bounds _ _ _ _ Hch). lia.
Qed.

Lemma reachable_cells_within_frontier_witness :
  let s := {| _content := appended {[ 0 := 0 ]} 0 5 5; _last := 10;
              length := 5; didChange := [(5, 5)] |} in
  (∀ k v, _content s !! k = Some v → 0 ≤ k ≤ _last s) ∧
  _content s !! _last s = Some 0 ∧
  (∃ v, _content s !! 0 = Some v ∧ v ≤ 0) ∧
  0 ≤ length s ≤ _last s.
Proof.
  intros s. apply (reachable_cells_within_frontier s).
  apply (reachable_add (create None) 0 5 (Some 5) s (reachable_create None)).
  - lia.
  - cbn. lia.
  - reflexivity.
Defined.

(** X2.  In every set built by valid calls of [add] a present index
    lies strictly between 0 and the frontier: index 0 is never present,
    whatever was added. *)
Theorem present_strictly_inside s i :
  reachable s → present s i → 0 < i < _last s.
Proof.
  intros [rs HI]%reachable_Inv Hp.
  apply (present_Inv _ _ _ HI) in Hp as (a & b & Hin & Hi).
  destruct HI as (Hch & _).
  destruct (chain_runs _ _ _ _ Hch _ _ Hin) as (_ & ? & ? & ?). lia.
Qed.

Lemma present_strictly_inside_witness :
  let s := {| _content := appended {[ 0 := 0 ]} 0 5 5; _last := 10;
              length := 5; didChange := [(5, 5)] |} in
  0 < 7 < _last s.
Proof.
  intros s. apply (present_strictly_inside s 7).
  - apply (reachable_add (create None) 0 5 (Some 5) s (reachable_create None)).
    + lia.
    + cbn. lia.
    + reflexivity.
  - exists 5, 10. split; [split; [reflexivity | lia] | lia].
Defined.

(** X3.  In every set built by valid calls of [add] two occupied ranges
    never touch: the earlier one ends strictly before the later one
    starts, so at least one absent index separates them. *)
Theorem occupied_ranges_do_not_touch s k1 e1 k2 e2 :
  reachable s → present_run s k1 e1 → present_run s k2 e2 → k1 < k2 →
  e1 < k2.
Proof.
  intros [rs HI]%reachable_Inv [H1 Hlt1] [H2 Hlt2] Hlt.
  pose proof HI as (Hch & _ & Hcells).
  destruct (Hcells _ _ H1) as (_ & _ & [? | Hin1]); [lia|].
  destruct (Hcells _ _ H2) as (_ & _ & [? | Hin2]); [lia|].
  eapply chain_separated; eauto.
Qed.

Lemma reachable_one_run : reachable one_run.
Proof.
  apply (reachable_add (create None) 0 5 (Some 5) one_run
           (reachable_create None)); [lia | cbn; lia | reflexivity].
Qed.

Lemma reachable_two_runs : reachable two_runs.
Proof.
  apply (reachable_add one_run 0 20 (Some 5) two_runs reachable_one_run);
    [lia | cbn; lia | reflexivity].
Qed.

Lemma occupied_ranges_do_not_touch_witness :
  present_run two_runs 5 10 ∧ present_run two_runs 20 25 ∧ 10 < 20.
Proof.
  assert (H1 : present_run two_runs 5 10) by (split; [reflexivity | lia]).
  assert (H2 : present_run two_runs 20 25) by (split; [reflexivity | lia]).
  split; [exact H1|]. split; [exact H2|].
  apply (occupied_ranges_do_not_touch two_runs 5 10 20 25).
  - apply reachable_two_runs.
  - exact H1.
  - exact H2.
  - lia.
Defined.

(** * The effect of a call on the present indices *)

(** What one valid call does to a set that satisfies the invariant. *)
Lemma add_valid_step fuel start len s rs :
  Inv s rs → 0 ≤ start → 0 ≤ len →
  start + len - _last s ≤ Z.of_nat fuel →
  ∃ s',
    add fuel start (Some len) s = Some s' ∧
    Inv s' (if start >? _last s then rs ++ new_run start len else rs) ∧
    _last s' = (if start >? _last s then start + len else _last s) ∧
    length s' = (if start >? _last s then length s + len else length s) ∧
    didChange s' = didChange s ++ [(start, len)].
Proof.
  intros HI Hstart Hlen Hfuel. destruct (start >? _last s) eqn:E.
  - destruct (add_beyond_last fuel start len s) as (c' & Hadd & _);
      [lia | lia | lia | lia |].
    eexists. split; [exact Hadd|].
    assert (Hgt : _last s < start) by lia.
    destruct (Inv_add_append _ _ _ _ _ _ Hgt Hstart Hlen Hadd HI)
      as (HI' & _).
    done.
  - eexists. split; [apply add_at_or_below_last; lia|]. done.
Qed.

Lemma elem_of_new_run start len a b :
  (a, b) ∈ new_run start len ↔ a = start ∧ b = start + len ∧ 0 < len.
Proof.
  unfold new_run. destruct (decide (0 < len)).
  - rewrite list_elem_of_singleton. split; [by intros [= -> ->] | by intros (-> & -> & _)].
  - split; [by intros ?%elem_of_nil | lia].
Qed.

(** X4.  For every set built by valid calls and every valid call,
    [add(start, length)] returns (given fuel for its hint pass), and the
    indices present afterwards are those present before together with,
    when [start] lies beyond the frontier, those of the span; a call
    with [start] at or below the frontier adds none. *)
Theorem add_effect_on_present fuel start len s :
  reachable s → 0 ≤ start → 0 ≤ len →
  start + len - _last s ≤ Z.of_nat fuel →
  ∃ s',
    add fuel start (Some len) s = Some s' ∧
    ∀ i, present s' i ↔
         present s i ∨ (_last s < start ∧ start ≤ i < start + len).
Proof.
  intros [rs HI]%reachable_Inv Hstart Hlen Hfuel.
  destruct (add_valid_step fuel start len s rs HI Hstart Hlen Hfuel)
    as (s' & Hadd & HI' & _).
  exists s'. split; [done|]. intros i.
  rewrite (present_Inv _ _ _ HI), (present_Inv _ _ _ HI').
  destruct (start >? _last s) eqn:E.
  - split.
    + intros (a & b & [Hin | Hin%elem_of_new_run]%elem_of_app & Hi).
      * left. eauto.
      * right. lia.
    + intros [(a & b & Hin & Hi) | [Hgt Hi]].
      * exists a, b. split; [apply elem_of_app; by left | done].
      * exists start, (start + len).
        split; [apply elem_of_app; right; apply elem_of_new_run; lia | done].
  - split; [by left | intros [? | [? _]]; [done | lia]].
Qed.

Lemma add_effect_on_present_witness :
  ∃ s',
    add 30 20 (Some 5) one_run = Some s' ∧
    ∀ i, present s' i ↔
         present one_run i ∨ (_last one_run < 20 ∧ 20 ≤ i < 20 + 5).
Proof.
  apply (add_effect_on_present 30 20 5 one_run).
  - apply reachable_one_run.
  - lia.
  - lia.
  - cbn. lia.
Defined.

(** X5.  For every set and every valid call that lies beyond the
    frontier and has a positive length, the added range is found from
    its first index: after [add(start, length)], [contains(start, l)]
    returns true exactly when [l] is at most [length]. *)
Theorem contains_after_add_at_start fuel start len s :
  _last s < start → 0 ≤ start → 0 < len →
  start + len - _last s ≤ Z.of_nat fuel →
  ∃ s',
    add fuel start (Some len) s = Some s' ∧
    ∀ fuel' l, contains fuel' s' start (Some l) = Some (l <=? len).
Proof.
  intros Hgt Hstart Hlen Hfuel.
  destruct (add_beyond_last fuel start len s) as (c' & Hadd & Hc');
    [lia | lia | lia | lia |].
  eexists. split; [exact Hadd|]. intros fuel' l.
  assert (Hcell : c' !! start = Some (start + len)).
  { destruct (Hc' start) as [-> | (_ & ? & _)]; [|done].
    unfold appended. rewrite lookup_insert_ne by lia. apply lookup_insert_eq. }
  unfold contains, rangeStartForIndex. cbn [_content _last].
  change (normalize (Some l)) with l.
  destruct (start >=? start + len) eqn:E; [lia|].
  rewrite Hcell. cbn.
  destruct (0 <? start + len) eqn:E0; [|lia]. cbn. rewrite Hcell. cbn.
  rewrite E0. destruct (start <=? start) eqn:E1; [|lia]. cbn.
  f_equal. destruct (start + l <=? start + len) eqn:E2;
    destruct (l <=? len) eqn:E3; lia.
Qed.

Lemma contains_after_add_at_start_witness :
  ∃ s',
    add 30 20 (Some 5) one_run = Some s' ∧
    ∀ fuel' l, contains fuel' s' 20 (Some l) = Some (l <=? 5).
Proof.
  apply (contains_after_add_at_start 30 20 5 one_run); cbn; lia.
Defined.

(** X6.  For every set built by valid calls and every valid call beyond
    the frontier, the enumeration of the new set is the enumeration of
    the old one with its final value, the old frontier, replaced by the
    indices of the span and the new frontier. *)
Theorem enumerate_after_append fuel start len s :
  reachable s → _last s < start → 0 ≤ len →
  start + len - _last s ≤ Z.of_nat fuel →
  ∃ s' l,
    add fuel start (Some len) s = Some s' ∧
    (∀ f, _last s + 2 ≤ Z.of_nat f →
          enumerate f s = Some (l ++ [_last s])) ∧
    (∀ f, start + len + 2 ≤ Z.of_nat f →
          enumerate f s' = Some (l ++ seqZ start len ++ [start + len])).
Proof.
  intros [rs HI]%reachable_Inv Hgt Hlen Hfuel.
  pose proof HI as (Hch & _). pose proof (chain_le _ _ _ _ Hch).
  destruct (add_valid_step fuel start len s rs HI ltac:(lia) Hlen Hfuel)
    as (s' & Hadd & HI' & Hlast & _).
  destruct (start >? _last s) eqn:E; [|lia].
  exists s', (indices rs). split; [done|]. split.
  - intros f Hf. by apply enumerate_Inv.
  - intros f Hf. rewrite (enumerate_Inv s' _ f HI') by lia.
    rewrite Hlast. f_equal. unfold indices. rewrite flat_map_app.
    rewrite <- app_assoc. do 2 f_equal. unfold new_run.
    destruct (decide (0 < len)); cbn.
    + rewrite app_nil_r. f_equal. lia.
    + rewrite seqZ_nil by lia. done.
Qed.

Lemma enumerate_after_append_witness :
  ∃ s' l,
    add 30 20 (Some 5) one_run = Some s' ∧
    (∀ f, _last one_run + 2 ≤ Z.of_nat f →
          enumerate f one_run = Some (l ++ [_last one_run])) ∧
    (∀ f, 20 + 5 + 2 ≤ Z.of_nat f →
          enumerate f s' = Some (l ++ seqZ 20 5 ++ [20 + 5])).
Proof.
  apply (enumerate_after_append 30 20 5 one_run).
  - apply reachable_one_run.
  - cbn. lia.
  - lia.
  - cbn. lia.
Defined.

(** * Sequences of calls *)

Lemma add_any_step fuel start len s :
  0 ≤ start → 0 ≤ len → start + len - _last s ≤ Z.of_nat fuel →
  ∃ s',
    add fuel start (Some len) s = Some s' ∧
    didChange s' = didChange s ++ [(start, len)] ∧ _last s ≤ _last s'.
Proof.
  intros Hstart Hlen Hfuel. destruct (decide (start ≤ _last s)) as [Hle|Hgt].
  - eexists. split; [by apply add_at_or_below_last|]. done.
  - destruct (add_beyond_last fuel start len s) as (c' & Hadd & _);
      [lia | lia | lia | lia |].
    eexists. split; [exact Hadd|]. cbn. split; [done | lia].
Qed.

(** X7.  For every set whose frontier is not negative and every
    sequence of valid calls (given fuel for the largest end), the chained
    calls all return and the change hook has received exactly the calls,
    in order, whether or not a call changed the set. *)
Theorem hook_receives_every_call fuel calls s :
  0 ≤ _last s →
  Forall (λ c, 0 ≤ c.1 ∧ 0 ≤ c.2 ∧ c.1 + c.2 ≤ Z.of_nat fuel) calls →
  ∃ s', add_all fuel calls s = Some s' ∧ didChange s' = didChange s ++ calls.
Proof.
  intros Hlast Hcalls. revert s Hlast.
  induction Hcalls as [|[start len] calls (Hs & Hl & Hf) _ IH]; intros s Hlast.
  - exists s. by rewrite app_nil_r.
  - cbn in Hs, Hl, Hf.
    destruct (add_any_step fuel start len s) as (s1 & Hadd & Hlog & Hmono);
      [lia | lia | lia |].
    destruct (IH s1 ltac:(lia)) as (s' & Hall & Hlog').
    exists s'. cbn. rewrite Hadd. cbn. split; [done|].
    by rewrite Hlog', Hlog, <- app_assoc.
Qed.

Lemma hook_receives_every_call_witness :
  ∃ s', add_all 30 [(5, 5); (3, 2); (20, 5)] (create None) = Some s' ∧
        didChange s' = didChange (create None) ++ [(5, 5); (3, 2); (20, 5)].
Proof.
  apply (hook_receives_every_call 30 [(5, 5); (3, 2); (20, 5)] (create None)).
  - cbn. lia.
  - repeat constructor; cbn; lia.
Defined.

Lemma add_all_Inv fuel calls :
  Forall (λ c, 0 ≤ c.1 ∧ 0 ≤ c.2 ∧ c.1 + c.2 ≤ Z.of_nat fuel) calls →
  ∀ s rs, Inv s rs →
  ∃ s' rs',
    add_all fuel calls s = Some s' ∧ Inv s' rs' ∧
    (∀ i, (∃ a b, (a, b) ∈ rs' ∧ a ≤ i < b) ↔
          (∃ a b, (a, b) ∈ rs ∧ a ≤ i < b) ∨
          (∃ a b, (a, b) ∈ effective (_last s) calls ∧ a ≤ i < b)) ∧
    length s' = length s + total (effective (_last s) calls) ∧
    _last s' = frontier_after (_last s) (effective (_last s) calls).
Proof.
  induction 1 as [|[start len] calls (Hs & Hl & Hf) _ IH]; intros s rs HI.
  - exists s, rs. cbn. split; [done|]. split; [done|].
    split; [|split; [lia | done]]. intros i. split; [by left|].
    intros [? | (? & ? & ?%elem_of_nil & _)]; done.
  - cbn in Hs, Hl, Hf. pose proof HI as (Hch & _).
    pose proof (chain_le _ _ _ _ Hch).
    destruct (add_valid_step fuel start len s rs HI Hs Hl ltac:(lia))
      as (s1 & Hadd & HI1 & Hlast1 & Hcard1 & _).
    destruct (IH s1 _ HI1) as (s' & rs' & Hall & HI' & Hpres & Hcard & Hlast).
    exists s', rs'. cbn [add_all effective]. rewrite Hadd. cbn.
    split; [done|]. split; [done|].
    rewrite Hcard, Hlast, Hcard1, Hlast1.
    destruct (start >? _last s) eqn:E.
    + split; [|split; [cbn; fold (total (effective (start + len) calls)); lia | done]].
      intros i. rewrite Hpres, Hlast1. split.
      * intros [(a & b & [Hin | Hin%elem_of_new_run]%elem_of_app & Hi) | (a & b & Hin & Hi)].
        -- left. eauto.
        -- right. exists start, (start + len).
           split; [apply elem_of_cons; by left | lia].
        -- right. exists a, b. split; [apply elem_of_cons; by right | done].
      * intros [(a & b & Hin & Hi) | (a & b & [[= -> ->] | Hin]%elem_of_cons & Hi)].
        -- left. exists a, b. split; [apply elem_of_app; by left | done].
        -- left. exists start, (start + len).
           split; [apply elem_of_app; right; apply elem_of_new_run; lia | done].
        -- right. eauto.
    + split; [|done]. intros i. by rewrite Hpres, Hlast1.
Qed.

(** X8.  For every set built by valid calls and every further sequence
    of valid calls, the chained calls all return, and the set they leave
    is described by the calls that count, those whose start lay beyond
    the frontier of the moment: the present indices are the earlier ones
    and those of the ranges of these calls, the cardinality has grown by
    their total length and the frontier is the end of the last of
    them. *)
Theorem add_all_appends_effective_calls fuel calls s :
  reachable s →
  Forall (λ c, 0 ≤ c.1 ∧ 0 ≤ c.2 ∧ c.1 + c.2 ≤ Z.of_nat fuel) calls →
  ∃ s',
    add_all fuel calls s = Some s' ∧
    (∀ i, present s' i ↔
          present s i ∨
          ∃ a b, (a, b) ∈ effective (_last s) calls ∧ a ≤ i < b) ∧
    length s' = length s + total (effective (_last s) calls) ∧
    _last s' = frontier_after (_last s) (effective (_last s) calls).
Proof.
  intros [rs HI]%reachable_Inv Hcalls.
  destruct (add_all_Inv fuel calls Hcalls s rs HI)
    as (s' & rs' & Hall & HI' & Hpres & Hcard & Hlast).
  exists s'. split; [done|]. split; [|done].
  intros i. by rewrite (present_Inv _ _ _ HI), (present_Inv _ _ _ HI'), Hpres.
Qed.

Lemma add_all_appends_effective_calls_witness :
  ∃ s',
    add_all 30 [(5, 5); (3, 2); (20, 5)] (create None) = Some s' ∧
    (∀ i, present s' i ↔
          present (create None) i ∨
          ∃ a b, (a, b) ∈ effective (_last (create None))
                             [(5, 5); (3, 2); (20, 5)] ∧ a ≤ i < b) ∧
    length s' = length (create None) +
                total (effective (_last (create None)) [(5, 5); (3, 2); (20, 5)]) ∧
    _last s' = frontier_after (_last (create None))
                 (effective (_last (create None)) [(5, 5); (3, 2); (20, 5)]).
Proof.
  apply (add_all_appends_effective_calls 30 [(5, 5); (3, 2); (20, 5)]
           (create None)).
  - apply reachable_create.
  - repeat constructor; cbn; lia.
Defined.

(** * The hint pass, exactly *)

Lemma hint_loop_in_run_exact start lim fuel :
  ∀ c loc,
    lim - loc ≤ Z.of_nat fuel → start ≤ loc →
    ∃ c', hint_loop fuel c start (Some lim) loc lim = Some c' ∧
      ∀ k, ((loc ≤ k < lim ∧ k ≠ start ∧ (256 | k - loc)) ∧
            c' !! k = Some start) ∨
           (¬ (loc ≤ k < lim ∧ k ≠ start ∧ (256 | k - loc)) ∧
            c' !! k = c !! k).
Proof.
  induction fuel as [|fuel IH]; intros c loc Hfuel Hloc.
  - exists c. simpl. destruct (loc <? lim) eqn:E; [lia|].
    split; [done|]. intros k. right. split; [lia | done].
  - cbn [hint_loop]. destruct (loc <? lim) eqn:E.
    2:{ exists c. split; [done|]. intros k. right. split; [lia | done]. }
    rewrite hint_seek_settled by lia. cbn. unfold HINT_SIZE in *.
    destruct (IH (if decide (loc ≠ start) then <[loc:=start]> c else c)
                 (loc + 256)) as (c' & Hrun & Hc'); [lia | lia |].
    exists c'. split; [exact Hrun|]. intros k.
    destruct (Hc' k) as [[(Hr & Hne & [z Hz]) Hk] | [Hnot Hk]].
    + left. split; [|done]. split; [lia|]. split; [done|].
      exists (z + 1). lia.
    + destruct (decide (k = loc)) as [->|Hkl].
      * destruct (decide (loc ≠ start)) as [Hn|Hn].
        -- left. rewrite Hk, lookup_insert_eq. split; [|done].
           split; [lia|]. split; [done|]. exists 0. lia.
        -- right. split; [|done]. intros (_ & ? & _). lia.
      * right. split.
        -- intros (Hr & Hne & [z Hz]). apply Hnot.
           split; [lia|]. split; [done|]. exists (z - 1). lia.
        -- rewrite Hk. destruct (decide (loc ≠ start)); [|done].
           by rewrite lookup_insert_ne.
Qed.

Lemma hint_loop_in_gap_exact last start lim fuel :
  last < start → start ≤ lim → 0 ≤ lim →
  ∀ c loc,
    lim - loc ≤ Z.of_nat fuel → last < loc →
    (start < lim → c !! start = Some lim) →
    ∃ c', hint_loop fuel c last (Some start) loc lim = Some c' ∧
      ∀ k, ((loc ≤ k < lim ∧ k ≠ start ∧ (256 | k - loc)) ∧
            c' !! k = Some (if k <? start then last else start)) ∨
           (¬ (loc ≤ k < lim ∧ k ≠ start ∧ (256 | k - loc)) ∧
            c' !! k = c !! k).
Proof.
  intros Hls Hsl Hlim.
  induction fuel as [|fuel IH]; intros c loc Hfuel Hloc Hcell.
  - exists c. simpl. destruct (loc <? lim) eqn:E; [lia|].
    split; [done|]. intros k. right. split; [lia | done].
  - cbn [hint_loop]. destruct (loc <? lim) eqn:E.
    2:{ exists c. split; [done|]. intros k. right. split; [lia | done]. }
    cbn [hint_seek]. unfold HINT_SIZE in *.
    destruct (start <=? loc) eqn:Es.
    + rewrite Hcell by lia. cbn [Math_abs fmap option_fmap option_map].
      rewrite Z.abs_eq by lia. rewrite hint_seek_settled by lia. cbn.
      destruct (hint_loop_in_run_exact start lim fuel
                  (if decide (loc ≠ start) then <[loc:=start]> c else c)
                  (loc + 256)) as (c' & Hrun & Hc'); [lia | lia |].
      exists c'. split; [exact Hrun|]. intros k.
      destruct (Hc' k) as [[(Hr & Hne & [z Hz]) Hk] | [Hnot Hk]].
      * left. destruct (k <? start) eqn:E'; [lia|]. split; [|done].
        split; [lia|]. split; [done|]. exists (z + 1). lia.
      * destruct (decide (k = loc)) as [->|Hkl].
        -- destruct (decide (loc ≠ start)) as [Hn|Hn].
           ++ left. rewrite Hk, lookup_insert_eq.
              destruct (loc <? start) eqn:E'; [lia|]. split; [|done].
              split; [lia|]. split; [done|]. exists 0. lia.
           ++ right. split; [|done]. intros (_ & ? & _). lia.
        -- right. split.
           ++ intros (Hr & Hne & [z Hz]). apply Hnot.
              split; [lia|]. split; [done|]. exists (z - 1). lia.
           ++ rewrite Hk. destruct (decide (loc ≠ start)); [|done].
              by rewrite lookup_insert_ne.
    + cbn. destruct (decide (loc ≠ last)) as [_|Hn]; [|lia].
      destruct (IH (<[loc:=last]> c) (loc + 256)) as (c' & Hrun & Hc');
        [lia | lia | |].
      { intros Hlt. rewrite lookup_insert_ne by lia. auto. }
      exists c'. split; [exact Hrun|]. intros k.
      destruct (Hc' k) as [[(Hr & Hne & [z Hz]) Hk] | [Hnot Hk]].
      * left. split; [|done].
        split; [lia|]. split; [done|]. exists (z + 1). lia.
      * destruct (decide (k = loc)) as [->|Hkl].
        -- left. rewrite Hk, lookup_insert_eq.
           destruct (loc <? start) eqn:E'; [|lia]. split; [|done].
           split; [lia|]. split; [lia|]. exists 0. lia.
        -- right. split.
           ++ intros (Hr & Hne & [z Hz]). apply Hnot.
              split; [lia|]. split; [done|]. exists (z - 1). lia.
           ++ rewrite Hk. by rewrite lookup_insert_ne.
Qed.

(** The first hint position after a frontier that is not negative is
    the least multiple of 256 beyond it. *)
Lemma hint_loc_first (last : Z) :
  0 ≤ last →
  ∀ k, (last - Z.rem last 256 + 256 ≤ k ∧
        (256 | k - (last - Z.rem last 256 + 256))) ↔
       (last < k ∧ (256 | k)).
Proof.
  intros H0 k.
  pose proof (Z.quot_rem' last 256) as Hqr.
  pose proof (Z.rem_bound_pos last 256 H0 ltac:(lia)) as Hr.
  set (q := last ÷ 256) in *. set (r := Z.rem last 256) in *.
  split.
  - intros [Hle [z Hz]]. split; [lia|]. exists (z + q + 1). lia.
  - intros [Hlt [z Hz]]. split; [lia|]. exists (z - q - 1). lia.
Qed.

Lemma add_beyond_last_exact fuel start len s :
  0 ≤ _last s → _last s < start → 0 ≤ len →
  start + len - _last s ≤ Z.of_nat fuel →
  ∃ c',
    add fuel start (Some len) s =
      Some {| _content := c'; _last := start + len;
              length := length s + len;
              didChange := didChange s ++ [(start, len)] |} ∧
    ∀ k, ((_last s < k < start + len ∧ k ≠ start ∧ (256 | k)) ∧
          c' !! k = Some (if k <? start then _last s else start)) ∨
         (¬ (_last s < k < start + len ∧ k ≠ start ∧ (256 | k)) ∧
          c' !! k = appended (_content s) (_last s) start len !! k).
Proof.
  intros Hlast Hgt Hlen Hfuel. unfold add.
  change (normalize (Some len)) with len.
  destruct (start >? _last s) eqn:E; [|lia].
  cbn [_content _last length didChange _hint].
  fold (appended (_content s) (_last s) start len).
  set (c0 := appended (_content s) (_last s) start len).
  assert (Hcell : c0 !! _last s = Some (0 - start)).
  { unfold c0, appended. rewrite !lookup_insert_ne by lia. apply lookup_insert_eq. }
  rewrite Hcell. cbn [Math_abs fmap option_fmap option_map].
  replace (Z.abs (0 - start)) with start by lia.
  replace (_last s + (start + len - _last s)) with (start + len) by lia.
  pose proof (hint_loc_after (_last s)) as Hloc.
  pose proof (hint_loc_first (_last s) Hlast) as Hfirst. unfold HINT_SIZE.
  destruct (hint_loop_in_gap_exact (_last s) start (start + len) fuel
              ltac:(lia) ltac:(lia) ltac:(lia) c0
              (_last s - Z.rem (_last s) 256 + 256)) as (c' & Hrun & Hc');
    [lia | lia | |].
  { intros Hlt. unfold c0, appended.
    rewrite lookup_insert_ne by lia. apply lookup_insert_eq. }
  exists c'. rewrite Hrun. cbn. split; [reflexivity|].
  intros k. destruct (Hc' k) as [[(Hr & Hne & Hd) Hk] | [Hnot Hk]].
  - left. split; [|done]. destruct (Hfirst k) as [H1 _].
    destruct H1 as [? ?]; [split; [lia | done]|]. split; [lia|]. done.
  - right. split; [|done]. intros (Hr & Hne & Hd). apply Hnot.
    destruct (Hfirst k) as [_ H2]. destruct H2 as [? ?]; [split; [lia | done]|].
    split; [lia|]. done.
Qed.

(** X9.  For every set whose frontier is not negative and every valid
    call beyond the frontier, the hint pass of [add] writes at every
    multiple of 256 strictly between the old and the new frontier, the
    new start excepted, the start of the range that contains it (the old
    frontier before the new start, the new start after it), and writes
    nowhere else: every other cell is as the append left it. *)
Theorem add_writes_every_hint fuel start len s :
  0 ≤ _last s → _last s < start → 0 ≤ len →
  start + len - _last s ≤ Z.of_nat fuel →
  ∃ s',
    add fuel start (Some len) s = Some s' ∧
    (∀ k, _last s < k < start + len → k ≠ start → (256 | k) →
          _content s' !! k = Some (if k <? start then _last s else start)) ∧
    (∀ k, ¬ (_last s < k < start + len ∧ k ≠ start ∧ (256 | k)) →
          _content s' !! k = appended (_content s) (_last s) start len !! k).
Proof.
  intros Hlast Hgt Hlen Hfuel.
  destruct (add_beyond_last_exact fuel start len s) as (c' & Hadd & Hc');
    auto.
  eexists. split; [exact Hadd|]. cbn. split.
  - intros k Hr Hne Hd. destruct (Hc' k) as [[_ Hk] | [Hnot _]]; [done|].
    destruct Hnot. done.
  - intros k Hnot. destruct (Hc' k) as [[Hw _] | [_ Hk]]; done.
Qed.

Lemma add_writes_every_hint_witness :
  ∃ s',
    add 1100 5 (Some 1000) (create None) = Some s' ∧
    (∀ k, _last (create None) < k < 5 + 1000 → k ≠ 5 → (256 | k) →
          _content s' !! k =
            Some (if k <? 5 then _last (create None) else 5)) ∧
    (∀ k, ¬ (_last (create None) < k < 5 + 1000 ∧ k ≠ 5 ∧ (256 | k)) →
          _content s' !! k =
            appended (_content (create None)) (_last (create None)) 5 1000 !! k).
Proof.
  apply (add_writes_every_hint 1100 5 1000 (create None)); cbn; lia.
Defined.

(** * Lookup in the first window *)

(** X10.  In every set built by valid calls of [add], below index 256
    [contains] answers true only at the first index of an occupied
    range: for every other start below 256 and every length that is not
    negative it returns false, whether or not the span is present.  The
    cell at 0, the hint position of this window, always starts the
    leading absent range, and its value is no key. *)
Theorem contains_below_256_only_at_range_start s i len fuel :
  reachable s → 0 ≤ i < 256 → 0 ≤ len →
  (∀ e, ¬ present_run s i e) →
  contains fuel s i (Some len) = Some false.
Proof.
  intros [rs HI]%reachable_Inv Hi Hlen Hnot.
  pose proof HI as (Hch & _ & Hcells).
  destruct (decide (_last s ≤ i)) as [Hge|Hlt].
  { by eapply contains_beyond_last. }
  unfold contains, rangeStartForIndex. change (normalize (Some len)) with len.
  destruct (i >=? _last s) eqn:E; [lia|].
  destruct (js_gt (_content s !! i) (Some 0)) eqn:Hpos.
  - cbn. destruct (_content s !! i) as [v|] eqn:Hv; [|done]. cbn in *.
    rewrite Hpos. cbn.
    destruct (i <=? i) eqn:E1; [|lia]. cbn.
    destruct (i + len <=? v) eqn:E2; [|done]. exfalso.
    destruct (Hcells _ _ Hv) as (_ & _ & [Hle | Hin]).
    + assert (v = i) as -> by lia.
      pose proof (no_self_cell _ _ _ HI Hv). lia.
    + destruct (chain_runs _ _ _ _ Hch _ _ Hin) as (_ & _ & ? & _).
      by apply (Hnot v).
  - rewrite Z.rem_small by lia. rewrite Z.sub_diag.
    inversion Hch as [a H0 | a s0 e rs' lst H0 Has Hs Hse Hch' | a s0 rs' lst H0 Has Hch'];
      subst; [lia | |].
    all: rewrite H0; cbn.
    all: destruct (_content s !! (- s0)) as [w|] eqn:Hw;
      [destruct (Hcells _ _ Hw) as (? & _); lia|].
    all: destruct fuel; cbn; rewrite Hw; done.
Qed.

Lemma contains_below_256_only_at_range_start_witness :
  contains 0 one_run 7 (Some 1) = Some false.
Proof.
  apply (contains_below_256_only_at_range_start one_run 7 1 0).
  - apply reachable_one_run.
  - lia.
  - lia.
  - intros e [H _]. vm_compute in H. discriminate H.
Defined.

(** * Hints in the sets a caller can build *)

Lemma chain_at_extend c c' v rs lst tail lim :
  chain_at c v rs lst →
  (∀ k, k < lst → c' !! k = c !! k) →
  chain c' lst tail lim →
  chain_at c' v (rs ++ tail) lim.
Proof.
  intros [Hch | (w & rs' & -> & Hv & Hlt & Hch)] Hsame Htail.
  - left. eapply chain_extend; eauto.
  - right. pose proof (chain_le _ _ _ _ Hch).
    exists w, (rs' ++ tail). split; [done|].
    split; [rewrite Hsame by lia; done|]. split; [done|].
    eapply chain_extend; eauto.
Qed.

Lemma hints_ok_create items : hints_ok (create items) [].
Proof. intros m Hm. cbn in Hm. lia. Qed.

Lemma hints_ok_add_merge fuel start len s s' rs :
  start ≤ _last s → add fuel start len s = Some s' →
  hints_ok s rs → hints_ok s' rs.
Proof.
  intros Hle Hadd HH. rewrite add_at_or_below_last in Hadd by done.
  injection Hadd as <-. exact HH.
Qed.

Lemma hints_ok_add_append fuel start len s s' rs :
  _last s < start → 0 ≤ len →
  add fuel start (Some len) s = Some s' → Inv s rs → hints_ok s rs →
  hints_ok s' (rs ++ new_run start len).
Proof.
  intros Hgt Hlen Hadd (Hch & _ & Hcells) HH.
  pose proof (chain_le _ _ _ _ Hch) as Hlast0.
  set (fuel' := (fuel `max` Z.to_nat (start + len - _last s))%nat).
  apply (add_mono _ fuel') in Hadd; [|lia].
  destruct (add_beyond_last_exact fuel' start len s) as (c' & Hadd' & Hc');
    [lia | lia | lia | lia |].
  rewrite Hadd' in Hadd. injection Hadd as <-.
  unfold hints_ok. cbn [_content _last].
  set (lst := _last s) in *. set (c := _content s) in *.
  set (lim := start + len) in *.
  assert (Hplain : ∀ k, (k ≤ lst ∨ k = start ∨ lim ≤ k) →
            c' !! k = appended c lst start len !! k).
  { intros k Hk. destruct (Hc' k) as [[(? & ? & _) _] | [_ ->]]; [lia | done]. }
  assert (Hold : ∀ k, k < lst → c' !! k = c !! k).
  { intros k Hk. rewrite Hplain by lia.
    unfold appended. by rewrite !lookup_insert_ne by lia. }
  assert (Hat_last : c' !! lst = Some (- start)).
  { rewrite Hplain by lia. unfold appended. rewrite !lookup_insert_ne by lia.
    rewrite lookup_insert_eq. f_equal; lia. }
  assert (Hat_lim : c' !! lim = Some 0).
  { rewrite Hplain by lia. unfold appended. apply lookup_insert_eq. }
  assert (Hat_start : 0 < len → c' !! start = Some lim).
  { intros Hpos. rewrite Hplain by lia. unfold appended.
    rewrite lookup_insert_ne by lia. apply lookup_insert_eq. }
  assert (Htail : chain c' lst (new_run start len) lim).
  { unfold new_run. destruct (decide (0 < len)) as [Hpos|Hzero].
    - apply (chain_run _ lst start lim); auto; try lia. by apply chain_end.
    - apply (chain_skip _ lst start); auto.
      replace start with lim by lia. by apply chain_end. }
  intros m Hm Hd.
  destruct (decide (m < lst)) as [Hlt|Hge].
  { (* an older position: its cell and its target are untouched *)
    destruct (HH m ltac:(lia) Hd) as (v & Hv & Hhint).
    exists v. split; [by rewrite Hold|]. intros Hvm.
    destruct (Hhint Hvm) as (rs0 & rs' & w & -> & Hat & Hbefore & Hw & Hcov).
    exists rs0, (rs' ++ new_run start len), w.
    split; [by rewrite app_assoc|].
    split; [eapply chain_at_extend; eauto|].
    split; [done|]. split; [rewrite Hold by lia; done | done]. }
  destruct (decide (m = lst)) as [->|Hne].
  { exists (- start). split; [done|]. lia. }
  destruct (decide (m = start)) as [->|Hns].
  { exists lim. split; [apply Hat_start; lia | lia]. }
  destruct (Hc' m) as [[_ Hmv] | [Hnot _]];
    [|destruct Hnot; split; [lia | split; done]].
  eexists. split; [exact Hmv|]. intros Hvm.
  destruct (m <? start) eqn:E.
  - exists rs, (new_run start len), (- start).
    split; [done|]. split; [by left|]. split.
    { intros a b Hin. by destruct (chain_runs _ _ _ _ Hch _ _ Hin) as (_ & _ & _ & ?). }
    split; [done | lia].
  - exists rs, (new_run start len), lim.
    split; [done|]. split.
    { right. exists lim, []. unfold new_run.
      destruct (decide (0 < len)); [|lia].
      split; [done|]. split; [apply Hat_start; lia|]. split; [lia|].
      by apply chain_end. }
    split.
    { intros a b Hin.
      destruct (chain_runs _ _ _ _ Hch _ _ Hin) as (_ & _ & _ & ?). lia. }
    split; [apply Hat_start; lia | lia].
Qed.

Lemma reachable_hints s : reachable s → ∃ rs, Inv s rs ∧ hints_ok s rs.
Proof.
  induction 1 as [items | s fuel start len s' _ (rs & HI & HH) Hstart Hlen Hadd].
  - exists []. split; [apply Inv_create | apply hints_ok_create].
  - destruct (decide (start ≤ _last s)) as [Hle|Hgt].
    + exists rs. split; [eapply Inv_add_merge | eapply hints_ok_add_merge]; eauto.
    + rewrite add_normalize in Hadd.
      exists (rs ++ new_run start (normalize len)). split.
      * eapply Inv_add_append; eauto. lia.
      * eapply hints_ok_add_append; eauto. lia.
Qed.

(** * Lookup through a hint *)

Lemma chain_head_cell c a rs lst : chain c a rs lst → ∃ v, c !! a = Some v.
Proof. destruct 1; eauto. Qed.

(** From the start of an absent range at or before an index that holds
    no cell, the walk stops on the start of the range that contains the
    index. *)
Lemma walk_chain c a rs lst i :
  chain c a rs lst → 0 ≤ a → a ≤ i → i < lst → c !! i = None →
  ∀ fuel, lst - a ≤ Z.of_nat fuel →
  ∃ h w,
    rangeStart_walk fuel c i (Some a) (Math_abs (c !! a)) = Some (Some h) ∧
    c !! h = Some w ∧ h ≤ i < Z.abs w ∧
    ((0 < w ∧ (h, w) ∈ rs) ∨
     (w < 0 ∧ ∀ k e, (k, e) ∈ rs → ¬ k ≤ i < e)).
Proof.
  intros Hch. revert i.
  induction Hch as [a H | a s e rs lst Ha Has Hs Hse Hch IH | a s rs lst Ha Has Hch IH];
    intros i H0 Hai Hi Hnone fuel Hfuel.
  - lia.
  - pose proof (chain_le _ _ _ _ Hch) as Hle.
    destruct (chain_head_cell _ _ _ _ Hch) as [ve Hve].
    assert (i ≠ s) by (intros ->; congruence).
    assert (i ≠ e) by (intros ->; congruence).
    rewrite Ha. cbn [Math_abs fmap option_fmap option_map].
    replace (Z.abs (- s)) with s by lia.
    destruct (decide (i < s)) as [Hlt|Hge].
    { exists a, (- s). split.
      { destruct fuel; cbn; (destruct (s <? i) eqn:E; [lia | done]). }
      split; [done|]. split; [lia|]. right. split; [lia|].
      intros k e' [[= -> ->] | Hin]%elem_of_cons; [lia|].
      destruct (chain_runs _ _ _ _ Hch _ _ Hin) as (_ & ? & _). lia. }
    destruct fuel as [|fuel]; [lia|]. cbn.
    destruct (s <? i) eqn:E; [|lia]. rewrite Hs. cbn.
    replace (Z.abs e) with e by lia.
    destruct (decide (i < e)) as [Hlt|Hge'].
    { exists s, e. split.
      { destruct fuel; cbn; (destruct (e <? i) eqn:E'; [lia | done]). }
      split; [done|]. split; [lia|]. left. split; [lia|].
      apply elem_of_cons. by left. }
    destruct fuel as [|fuel]; [lia|]. cbn.
    destruct (e <? i) eqn:E'; [|lia].
    destruct (IH i) with (fuel := fuel) as (h & w & Hwalk & Hh & Hcov & Hkind);
      [lia | lia | lia | done | lia |].
    exists h, w. split; [done|]. split; [done|]. split; [done|].
    destruct Hkind as [[Hpos Hin] | [Hneg Hno]].
    + left. split; [done|]. apply elem_of_cons. by right.
    + right. split; [done|].
      intros k e' [[= -> ->] | Hin]%elem_of_cons; [lia | by apply Hno].
  - pose proof (chain_le _ _ _ _ Hch) as Hle.
    destruct (chain_head_cell _ _ _ _ Hch) as [vs Hvs].
    assert (i ≠ s) by (intros ->; congruence).
    rewrite Ha. cbn [Math_abs fmap option_fmap option_map].
    replace (Z.abs (- s)) with s by lia.
    destruct (decide (i < s)) as [Hlt|Hge].
    { exists a, (- s). split.
      { destruct fuel; cbn; (destruct (s <? i) eqn:E; [lia | done]). }
      split; [done|]. split; [lia|]. right. split; [lia|].
      intros k e' Hin.
      destruct (chain_runs _ _ _ _ Hch _ _ Hin) as (_ & ? & _). lia. }
    destruct fuel as [|fuel]; [lia|]. cbn.
    destruct (s <? i) eqn:E; [|lia].
    destruct (IH i) with (fuel := fuel) as (h & w & Hwalk & Hh & Hcov & Hkind);
      [lia | lia | lia | done | lia |].
    exists h, w. done.
Qed.

Lemma walk_chain_at c v rs lst i :
  chain_at c v rs lst → 0 ≤ v → v ≤ i → i < lst → c !! i = None →
  ∀ fuel, lst - v ≤ Z.of_nat fuel →
  ∃ h w,
    rangeStart_walk fuel c i (Some v) (Math_abs (c !! v)) = Some (Some h) ∧
    c !! h = Some w ∧ h ≤ i < Z.abs w ∧
    ((0 < w ∧ (h, w) ∈ rs) ∨
     (w < 0 ∧ ∀ k e, (k, e) ∈ rs → ¬ k ≤ i < e)).
Proof.
  intros [Hch | (w0 & rs' & -> & Hv & Hlt & Hch)] H0 Hvi Hi Hnone fuel Hfuel.
  - by apply (walk_chain c v rs lst i Hch).
  - pose proof (chain_le _ _ _ _ Hch) as Hle.
    destruct (chain_head_cell _ _ _ _ Hch) as [vw Hvw].
    assert (i ≠ w0) by (intros ->; congruence).
    rewrite Hv. cbn [Math_abs fmap option_fmap option_map].
    replace (Z.abs w0) with w0 by lia.
    destruct (decide (i < w0)) as [Hiw|Hge].
    { exists v, w0. split.
      { destruct fuel; cbn; (destruct (w0 <? i) eqn:E; [lia | done]). }
      split; [done|]. split; [lia|]. left. split; [lia|].
      apply elem_of_cons. by left. }
    destruct fuel as [|fuel]; [lia|]. cbn.
    destruct (w0 <? i) eqn:E; [|lia].
    destruct (walk_chain c w0 rs' lst i Hch) with (fuel := fuel)
      as (h & w & Hwalk & Hh & Hcov & Hkind); [lia | lia | lia | done | lia |].
    exists h, w. split; [done|]. split; [done|]. split; [done|].
    destruct Hkind as [[Hpos Hin] | [Hneg Hno]].
    + left. split; [done|]. apply elem_of_cons. by right.
    + right. split; [done|].
      intros k e' [[= -> ->] | Hin]%elem_of_cons; [lia | by apply Hno].
Qed.

(** The hint position of an index that is not negative. *)
Lemma hint_position (i : Z) :
  256 ≤ i → 0 < i - Z.rem i 256 ≤ i ∧ (256 | i - Z.rem i 256).
Proof.
  intros Hi.
  pose proof (Z.quot_rem' i 256) as Hqr.
  pose proof (Z.rem_bound_pos i 256 ltac:(lia) ltac:(lia)) as Hr.
  split; [lia|]. exists (i ÷ 256). lia.
Qed.

Lemma lookup_through_hint s rs i v fuel :
  Inv s rs → hints_ok s rs →
  256 ≤ i < _last s → _content s !! i = None →
  _content s !! (i - Z.rem i 256) = Some v → 0 ≤ v < i - Z.rem i 256 →
  _last s ≤ Z.of_nat fuel →
  ∃ h w,
    rangeStartForIndex fuel s i = Some (Some h) ∧
    _content s !! h = Some w ∧ h ≤ i < Z.abs w ∧
    ((0 < w ∧ (h, w) ∈ rs) ∨
     (w < 0 ∧ ∀ k e, (k, e) ∈ rs → ¬ k ≤ i < e)).
Proof.
  intros HI HH Hi Hnone Hbase Hhint Hfuel.
  destruct (hint_position i ltac:(lia)) as [Hm Hd].
  destruct (HH (i - Z.rem i 256)) as (v' & Hv' & Hok); [lia | done |].
  rewrite Hbase in Hv'. injection Hv' as <-.
  destruct (Hok Hhint) as (rs0 & rs' & w0 & -> & Hat & Hbefore & Hw0 & _).
  unfold rangeStartForIndex.
  destruct (i >=? _last s) eqn:E; [lia|].
  rewrite Hnone. cbn [js_gt js_lt]. rewrite Hbase. cbn [get mbind option_bind].
  destruct (walk_chain_at _ _ _ _ i Hat) with (fuel := fuel)
    as (h & w & Hwalk & Hh & Hcov & Hkind); [lia | lia | lia | done | lia |].
  exists h, w. split; [done|]. split; [done|]. split; [done|].
  destruct Hkind as [[Hpos Hin] | [Hneg Hno]].
  - left. split; [done|]. apply elem_of_app. by right.
  - right. split; [done|].
    intros k e [Hin | Hin]%elem_of_app; [|by apply Hno].
    pose proof (Hbefore _ _ Hin). lia.
Qed.

Lemma chain_run_end_cell c a rs lst :
  chain c a rs lst → ∀ k e, (k, e) ∈ rs → ∃ v, c !! e = Some v.
Proof.
  induction 1 as [a H | a s e rs lst Ha Has Hs Hse Hch IH | a s rs lst Ha Has Hch IH];
    intros k e' Hin.
  - by apply elem_of_nil in Hin.
  - apply elem_of_cons in Hin as [[= -> ->] | Hin]; [|eauto].
    eapply chain_head_cell; eauto.
  - eauto.
Qed.

Lemma reachable_long_run : reachable long_run.
Proof.
  apply (reachable_add (create None) 3 5 (Some 1000) long_run
           (reachable_create None)); [lia | cbn; lia | by vm_compute].
Qed.

(** X11.  In every set built by valid calls of [add], every multiple of
    256 strictly between 0 and the frontier holds a cell, and the cell
    is the start of an absent range (a negative value), the start of an
    occupied range (a value beyond the key) or a hint: a value below the
    key that is itself a key, not past the position, whose range extends
    beyond the position. *)
Theorem hint_positions_hold_range_starts s m :
  reachable s → 0 < m < _last s → (256 | m) →
  ∃ v, _content s !! m = Some v ∧
       (v < 0 ∨ m < v ∨
        (0 ≤ v < m ∧ ∃ w, _content s !! v = Some w ∧ v ≤ m < Z.abs w)).
Proof.
  intros (rs & HI & HH)%reachable_hints Hm Hd.
  destruct (HH m Hm Hd) as (v & Hv & Hok).
  exists v. split; [done|].
  destruct (decide (v < 0)) as [?|Hnn]; [by left|].
  destruct (decide (m < v)) as [?|Hle]; [by right; left|].
  right. right.
  assert (v ≠ m).
  { intros ->. pose proof (no_self_cell _ _ _ HI Hv). lia. }
  split; [lia|].
  destruct Hok as (_ & _ & w & _ & _ & _ & Hw & Hcov); [lia|].
  exists w. split; [done | lia].
Qed.

Lemma hint_positions_hold_range_starts_witness :
  ∃ v, _content long_run !! 512 = Some v ∧
       (v < 0 ∨ 512 < v ∨
        (0 ≤ v < 512 ∧
         ∃ w, _content long_run !! v = Some w ∧ v ≤ 512 < Z.abs w)).
Proof.
  apply (hint_positions_hold_range_starts long_run 512).
  - apply reachable_long_run.
  - cbn. lia.
  - exists 2. lia.
Defined.

(** X12.  In every set built by valid calls of [add], for an index from
    256 up to the frontier that holds no cell and whose hint position
    holds a hint, [rangeStartForIndex] returns (given fuel for the
    frontier) the start of the range, occupied or absent, that contains
    the index; the range is occupied exactly when the index is
    present. *)
Theorem rangeStartForIndex_through_hint s i v fuel :
  reachable s → 256 ≤ i < _last s → _content s !! i = None →
  _content s !! (i - Z.rem i 256) = Some v → 0 ≤ v < i - Z.rem i 256 →
  _last s ≤ Z.of_nat fuel →
  ∃ h w,
    rangeStartForIndex fuel s i = Some (Some h) ∧
    _content s !! h = Some w ∧ h ≤ i < Z.abs w ∧
    (present s i ↔ 0 < w).
Proof.
  intros (rs & HI & HH)%reachable_hints Hi Hnone Hbase Hhint Hfuel.
  destruct (lookup_through_hint s rs i v fuel HI HH Hi Hnone Hbase Hhint Hfuel)
    as (h & w & Hret & Hh & Hcov & Hkind).
  exists h, w. do 3 (split; [done|]).
  rewrite (present_Inv _ _ _ HI).
  destruct Hkind as [[Hpos Hin] | [Hneg Hno]].
  - split; [done|]. intros _. exists h, w. split; [done | lia].
  - split; [|lia]. intros (a & b & Hin & Hab). by destruct (Hno _ _ Hin).
Qed.

Lemma rangeStartForIndex_through_hint_witness :
  ∃ h w,
    rangeStartForIndex 1005 long_run 300 = Some (Some h) ∧
    _content long_run !! h = Some w ∧ h ≤ 300 < Z.abs w ∧
    (present long_run 300 ↔ 0 < w).
Proof.
  apply (rangeStartForIndex_through_hint long_run 300 5 1005).
  - apply reachable_long_run.
  - cbn. lia.
  - reflexivity.
  - reflexivity.
  - replace (Z.rem 300 256) with 44 by reflexivity. lia.
  - cbn. lia.
Defined.

(** X13.  Under the same conditions, with a length that is not
    negative, [contains] is exact: it returns true if and only if one
    occupied range covers the whole span. *)
Theorem contains_through_hint s i v len fuel :
  reachable s → 256 ≤ i < _last s → _content s !! i = None →
  _content s !! (i - Z.rem i 256) = Some v → 0 ≤ v < i - Z.rem i 256 →
  0 ≤ len → _last s ≤ Z.of_nat fuel →
  ∃ b,
    contains fuel s i (Some len) = Some b ∧
    (b = true ↔ ∃ k e, present_run s k e ∧ k ≤ i ∧ i + len ≤ e).
Proof.
  intros (rs & HI & HH)%reachable_hints Hi Hnone Hbase Hhint Hlen Hfuel.
  destruct (lookup_through_hint s rs i v fuel HI HH Hi Hnone Hbase Hhint Hfuel)
    as (h & w & Hret & Hh & Hcov & Hkind).
  pose proof HI as (Hch & _ & Hcells).
  unfold contains. change (normalize (Some len)) with len.
  rewrite Hret. cbn. rewrite Hh. cbn.
  eexists. split; [reflexivity|].
  rewrite !andb_true_iff, Z.ltb_lt, !Z.leb_le. split.
  - intros [[Hpos _] Hend]. destruct Hkind as [[_ Hin] | [Hneg _]]; [|lia].
    destruct (chain_runs _ _ _ _ Hch _ _ Hin) as (_ & _ & ? & _).
    exists h, w. split; [split; done | lia].
  - intros (k & e & [Hk Hke] & Hki & Hend).
    destruct (Hcells _ _ Hk) as (_ & _ & [? | Hin]); [lia|].
    destruct (chain_run_end_cell _ _ _ _ Hch _ _ Hin) as [ve Hve].
    assert (i ≠ e) by (intros ->; congruence).
    destruct Hkind as [[Hpos Hin'] | [_ Hno]];
      [|destruct (Hno _ _ Hin); lia].
    assert (h = k) as ->.
    { destruct (Z.lt_trichotomy h k) as [Hlt | [? | Hgt]]; [|done|].
      - pose proof (chain_separated _ _ _ _ Hch _ _ _ _ Hin' Hin Hlt). lia.
      - pose proof (chain_separated _ _ _ _ Hch _ _ _ _ Hin Hin' Hgt). lia. }
    rewrite Hk in Hh. injection Hh as <-. lia.
Qed.

Lemma contains_through_hint_witness :
  ∃ b,
    contains 1005 long_run 300 (Some 700) = Some b ∧
    (b = true ↔ ∃ k e, present_run long_run k e ∧ k ≤ 300 ∧ 300 + 700 ≤ e).
Proof.
  apply (contains_through_hint long_run 300 5 700 1005).
  - apply reachable_long_run.
  - cbn. lia.
  - reflexivity.
  - reflexivity.
  - replace (Z.rem 300 256) with 44 by reflexivity. lia.
  - lia.
  - cbn. lia.
Defined.

(** * The debug dump *)

Lemma max_list_ge (l : list Z) (i x : Z) : x ∈ l → x ≤ foldr Z.max i l.
Proof.
  induction l as [|y l IH]; [by intros ?%elem_of_nil|].
  intros [-> | Hin]%elem_of_cons; cbn; [lia|]. specialize (IH Hin). lia.
Qed.

Lemma max_list_le (l : list Z) (i b : Z) :
  i ≤ b → (∀ x, x ∈ l → x ≤ b) → foldr Z.max i l ≤ b.
Proof.
  intros Hi. induction l as [|y l IH]; intros Hall; cbn; [done|].
  assert (y ≤ b) by (apply Hall, elem_of_cons; by left).
  assert (foldr Z.max i l ≤ b) by (apply IH; intros x Hx; apply Hall, elem_of_cons; by right).
  lia.
Qed.

Lemma array_length_Inv s rs :
  Inv s rs → _last s ≤ max_array_index →
  array_length (_content s) = _last s + 1.
Proof.
  intros (Hch & _ & Hcells) Hbound. unfold array_length.
  pose proof (chain_le _ _ _ _ Hch).
  set (keys := filter (λ k, 0 ≤ k ≤ max_array_index)
                 (map_to_list (_content s)).*1).
  assert (foldr Z.max (-1) keys ≤ _last s).
  { apply max_list_le; [lia|].
    intros k [_ Hk]%list_elem_of_filter.
    apply list_elem_of_fmap in Hk as [[k' v] [-> Hkv%elem_of_map_to_list]].
    by destruct (Hcells _ _ Hkv) as ([_ ?] & _). }
  assert (_last s ≤ foldr Z.max (-1) keys).
  { apply max_list_ge. apply list_elem_of_filter. split; [lia|].
    apply list_elem_of_fmap. exists (_last s, 0).
    split; [done|]. apply elem_of_map_to_list.
    eapply chain_end_mark; eauto. }
  lia.
Qed.

Lemma elem_of_inspect_entries s k v :
  (k, v) ∈ inspect_entries s ↔
  0 ≤ k < array_length (_content s) ∧ _content s !! k = Some v.
Proof.
  unfold inspect_entries. rewrite list_elem_of_omap. split.
  - intros (idx & Hidx%elem_of_seqZ & Hf).
    destruct (_content s !! idx) as [item|] eqn:Hitem; [|done].
    injection Hf as -> ->. split; [lia | done].
  - intros [Hk Hv]. exists k. split; [apply elem_of_seqZ; lia|].
    by rewrite Hv.
Qed.

Lemma inspect_keys_sorted (c : gmap Z Z) (l : list Z) :
  StronglySorted Z.lt l →
  StronglySorted Z.lt (omap (λ idx, (λ item, (idx, item)) <$> c !! idx) l).*1.
Proof.
  induction 1 as [|x l Hs IH Hall]; [constructor|].
  cbn. destruct (c !! x) as [item|]; cbn; [|done].
  constructor; [done|]. apply Forall_forall. intros k Hk.
  apply list_elem_of_fmap in Hk as ([k' v] & -> & Hin).
  apply list_elem_of_omap in Hin as (idx & Hidx & Hf).
  destruct (c !! idx); [|done]. injection Hf as -> ->.
  rewrite Forall_forall in Hall. by apply Hall.
Qed.

(** X14.  For every set built by valid calls of [add], the entries of
    the debug dump are exactly the cells of the boundary map whose key
    lies below the array length, each once and in increasing key order.
    When the frontier is an array index, at most 2^32 - 2, the array
    length is the frontier plus one and the dump lists every cell. *)
Theorem inspect_lists_every_cell s :
  reachable s →
  (∀ k v, (k, v) ∈ inspect_entries s ↔
          _content s !! k = Some v ∧ k < array_length (_content s)) ∧
  StronglySorted Z.lt (inspect_entries s).*1 ∧
  (_last s ≤ max_array_index →
   array_length (_content s) = _last s + 1 ∧
   ∀ k v, (k, v) ∈ inspect_entries s ↔ _content s !! k = Some v).
Proof.
  intros [rs HI]%reachable_Inv.
  pose proof HI as (_ & _ & Hcells).
  split; [|split].
  - intros k v. rewrite elem_of_inspect_entries. split.
    + intros [[_ ?] ?]. done.
    + intros [Hk ?]. destruct (Hcells _ _ Hk) as (? & _).
      split; [lia | done].
  - apply inspect_keys_sorted.
    destruct (Z_le_gt_dec 0 (array_length (_content s))) as [Hn|Hn].
    + replace (array_length (_content s))
        with (Z.of_nat (Z.to_nat (array_length (_content s)))) by lia.
      apply seqZ_sorted.
    + rewrite seqZ_nil by lia. constructor.
  - intros Hbound.
    pose proof (array_length_Inv _ _ HI Hbound) as Hlen. split; [done|].
    intros k v. rewrite elem_of_inspect_entries, Hlen. split; [by intros [_ ?]|].
    intros Hk. split; [|done].
    destruct (Hcells _ _ Hk) as (? & _). lia.
Qed.

Lemma inspect_lists_every_cell_witness :
  (∀ k v, (k, v) ∈ inspect_entries two_runs ↔
          _content two_runs !! k = Some v ∧
          k < array_length (_content two_runs)) ∧
  StronglySorted Z.lt (inspect_entries two_runs).*1 ∧
  (_last two_runs ≤ max_array_index →
   array_length (_content two_runs) = _last two_runs + 1 ∧
   ∀ k v, (k, v) ∈ inspect_entries two_runs ↔
          _content two_runs !! k = Some v).
Proof. apply (inspect_lists_every_cell two_runs), reachable_two_runs. Defined.

(** The dump of the set left by [add(5, 5)] and [add(20, 5)]. *)
Example inspect_two_runs :
  inspect two_runs = "SC.IndexSet<0:-5 , 5:10 , 10:-20 , 20:25 , 25:0>"%string.
Proof. by vm_compute. Qed.

(** * Absent ranges in the sets a caller can build *)

Lemma gaps_ok_create items : gaps_ok (create items) [].
Proof.
  intros k v Hkv Hneg. cbn in Hkv.
  apply lookup_singleton_Some in Hkv as [_ <-]. lia.
Qed.

Lemma gaps_ok_add_merge fuel start len s s' rs :
  start ≤ _last s → add fuel start len s = Some s' →
  gaps_ok s rs → gaps_ok s' rs.
Proof.
  intros Hle Hadd HG. rewrite add_at_or_below_last in Hadd by done.
  injection Hadd as <-. exact HG.
Qed.

Lemma gaps_ok_add_append fuel start len s s' rs :
  _last s < start → 0 ≤ len →
  add fuel start (Some len) s = Some s' → Inv s rs → gaps_ok s rs →
  gaps_ok s' (rs ++ new_run start len).
Proof.
  intros Hgt Hlen Hadd (Hch & _) HG.
  pose proof (chain_le _ _ _ _ Hch) as Hlast0.
  set (fuel' := (fuel `max` Z.to_nat (start + len - _last s))%nat).
  apply (add_mono _ fuel') in Hadd; [|lia].
  destruct (add_beyond_last fuel' start len s) as (c' & Hadd' & Hc');
    [lia | lia | lia | lia |].
  rewrite Hadd' in Hadd. injection Hadd as <-.
  unfold gaps_ok. cbn [_content _last]. intros k v Hkv Hneg.
  destruct (Hc' k) as [Hk | (_ & _ & Hk)].
  2:{ rewrite Hk in Hkv. injection Hkv as <-.
      destruct (k <? start); lia. }
  rewrite Hk in Hkv. unfold appended in Hkv.
  destruct (decide (k = start + len)) as [->|Hk1].
  { rewrite lookup_insert_eq in Hkv. injection Hkv as <-. lia. }
  rewrite lookup_insert_ne in Hkv by done.
  destruct (decide (k = start)) as [->|Hk2].
  { rewrite lookup_insert_eq in Hkv. injection Hkv as <-. lia. }
  rewrite lookup_insert_ne in Hkv by done.
  destruct (decide (k = _last s)) as [->|Hk3].
  { rewrite lookup_insert_eq in Hkv. injection Hkv as <-.
    split; [lia|]. intros a b [Hin | Hin%elem_of_new_run]%elem_of_app.
    - left. by destruct (chain_runs _ _ _ _ Hch _ _ Hin) as (_ & _ & _ & ?).
    - right. lia. }
  rewrite lookup_insert_ne in Hkv by done.
  destruct (HG _ _ Hkv Hneg) as [Hend Hruns].
  split; [lia|]. intros a b [Hin | Hin%elem_of_new_run]%elem_of_app.
  - by apply Hruns.
  - right. lia.
Qed.

Lemma reachable_full s :
  reachable s → ∃ rs, Inv s rs ∧ hints_ok s rs ∧ gaps_ok s rs.
Proof.
  induction 1 as [items | s fuel start len s' _ (rs & HI & HH & HG) Hstart Hlen Hadd].
  - exists []. split; [apply Inv_create|].
    split; [apply hints_ok_create | apply gaps_ok_create].
  - destruct (decide (start ≤ _last s)) as [Hle|Hgt].
    + exists rs. split; [eapply Inv_add_merge; eauto|].
      split; [eapply hints_ok_add_merge | eapply gaps_ok_add_merge]; eauto.
    + rewrite add_normalize in Hadd.
      exists (rs ++ new_run start (normalize len)). split.
      * eapply Inv_add_append; eauto. lia.
      * split; [eapply hints_ok_add_append | eapply gaps_ok_add_append];
          eauto; lia.
Qed.

(** Where the lookup has found the range that contains [start], a span
    of at least one index that one occupied range covers is reported. *)
Lemma contains_where_resolved s rs start len h fuel :
  Inv s rs → gaps_ok s rs → 0 ≤ start → 1 ≤ len →
  rangeStartForIndex fuel s start = Some (Some h) →
  resolves s start h →
  (∃ k e, present_run s k e ∧ k ≤ start ∧ start + len ≤ e) →
  contains fuel s start (Some len) = Some true.
Proof.
  intros HI HG Hstart Hlen Hret (w & Hh & Hcov) (k & e & [Hk Hke] & Hks & Hend).
  pose proof HI as (Hch & _ & Hcells).
  destruct (Hcells _ _ Hk) as (_ & _ & [? | Hin]); [lia|].
  unfold contains. change (normalize (Some len)) with len.
  rewrite Hret. cbn. rewrite Hh. cbn.
  assert (w = e ∧ h ≤ start) as [-> Hhs].
  { destruct (Z.lt_trichotomy w 0) as [Hneg | [-> | Hpos]]; [| lia |].
    - destruct (HG _ _ Hh Hneg) as [_ Hruns].
      destruct (Hruns _ _ Hin); lia.
    - destruct (Hcells _ _ Hh) as (_ & _ & [? | Hin']); [lia|].
      assert (h = k) as ->.
      { destruct (Z.lt_trichotomy h k) as [Hlt | [? | Hgt]]; [|done|].
        - pose proof (chain_separated _ _ _ _ Hch _ _ _ _ Hin' Hin Hlt). lia.
        - pose proof (chain_separated _ _ _ _ Hch _ _ _ _ Hin Hin' Hgt). lia. }
      rewrite Hk in Hh. injection Hh as <-. lia. }
  destruct (0 <? e) eqn:E0; [|lia].
  destruct (h <=? start) eqn:E1; [|lia].
  destruct (start + len <=? e) eqn:E2; [done | lia].
Qed.

(** C7, as the code has it.  For every set built by valid calls of
    [add], every start and every length that are not negative:
    [contains] returns (given fuel for the frontier); it returns true
    only if one occupied range covers the whole span; and for a span of
    at least one index it returns true if one occupied range covers it,
    wherever [rangeStartForIndex] has returned the start of the range
    that contains [start].  The lookup does so at the first index of an
    occupied range and, from 256 up, at an index that holds no cell and
    whose hint position holds a hint.  At and after the frontier
    [contains] returns false, whatever the length: the empty span is
    looked up like any other. *)
Theorem contains_iff_where_lookup_resolves s start len :
  reachable s → 0 ≤ start → 0 ≤ len →
  (∀ fuel, _last s ≤ Z.of_nat fuel →
           ∃ b, contains fuel s start (Some len) = Some b) ∧
  (∀ fuel, contains fuel s start (Some len) = Some true →
           ∃ k e, present_run s k e ∧ k ≤ start ∧ start + len ≤ e ∧
                  ∀ i, start ≤ i < start + len → present s i) ∧
  (∀ fuel h, 1 ≤ len →
             rangeStartForIndex fuel s start = Some (Some h) →
             resolves s start h →
             (∃ k e, present_run s k e ∧ k ≤ start ∧ start + len ≤ e) →
             contains fuel s start (Some len) = Some true) ∧
  (∀ fuel e, present_run s start e →
             rangeStartForIndex fuel s start = Some (Some start) ∧
             resolves s start start) ∧
  (∀ fuel v, 256 ≤ start < _last s → _content s !! start = None →
             _content s !! (start - Z.rem start 256) = Some v →
             0 ≤ v < start - Z.rem start 256 →
             _last s ≤ Z.of_nat fuel →
             ∃ h, rangeStartForIndex fuel s start = Some (Some h) ∧
                  resolves s start h) ∧
  (∀ fuel, _last s ≤ start → contains fuel s start (Some len) = Some false).
Proof.
  intros (rs & HI & HH & HG)%reachable_full Hstart Hlen.
  pose proof HI as (Hch & _ & Hcells).
  split; [|split; [|split; [|split; [|split]]]].
  - intros fuel Hfuel. by eapply contains_total.
  - intros fuel Htrue.
    destruct (contains_true _ _ _ _ _ HI Hstart Hlen Htrue)
      as (k & e & Hrun & Hk & He).
    exists k, e. do 3 (split; [done|]).
    intros i Hi. exists k, e. split; [done | lia].
  - intros fuel h Hpos Hret Hres Hcov. by eapply contains_where_resolved.
  - intros fuel e [Hk Hlt].
    destruct (Hcells _ _ Hk) as (_ & _ & [? | Hin]); [lia|].
    destruct (chain_runs _ _ _ _ Hch _ _ Hin) as (_ & _ & _ & Hle).
    split.
    + unfold rangeStartForIndex.
      destruct (start >=? _last s) eqn:E; [lia|].
      rewrite Hk. cbn. destruct (0 <? e) eqn:E0; [done | lia].
    + exists e. split; [done | lia].
  - intros fuel v Hi Hnone Hbase Hhint Hfuel.
    destruct (lookup_through_hint s rs start v fuel HI HH Hi Hnone Hbase Hhint Hfuel)
      as (h & w & Hret & Hh & Hcov & _).
    exists h. split; [done|]. by exists w.
  - intros fuel Hle. by eapply contains_beyond_last.
Qed.

Lemma contains_iff_where_lookup_resolves_witness :
  (∀ fuel, _last long_run ≤ Z.of_nat fuel →
           ∃ b, contains fuel long_run 300 (Some 700) = Some b) ∧
  (∀ fuel, contains fuel long_run 300 (Some 700) = Some true →
           ∃ k e, present_run long_run k e ∧ k ≤ 300 ∧ 300 + 700 ≤ e ∧
                  ∀ i, 300 ≤ i < 300 + 700 → present long_run i) ∧
  (∀ fuel h, 1 ≤ 700 →
             rangeStartForIndex fuel long_run 300 = Some (Some h) →
             resolves long_run 300 h →
             (∃ k e, present_run long_run k e ∧ k ≤ 300 ∧ 300 + 700 ≤ e) →
             contains fuel long_run 300 (Some 700) = Some true) ∧
  (∀ fuel e, present_run long_run 300 e →
             rangeStartForIndex fuel long_run 300 = Some (Some 300) ∧
             resolves long_run 300 300) ∧
  (∀ fuel v, 256 ≤ 300 < _last long_run → _content long_run !! 300 = None →
             _content long_run !! (300 - Z.rem 300 256) = Some v →
             0 ≤ v < 300 - Z.rem 300 256 →
             _last long_run ≤ Z.of_nat fuel →
             ∃ h, rangeStartForIndex fuel long_run 300 = Some (Some h) ∧
                  resolves long_run 300 h) ∧
  (∀ fuel, _last long_run ≤ 300 →
           contains fuel long_run 300 (Some 700) = Some false).
Proof.
  apply (contains_iff_where_lookup_resolves long_run 300 700).
  - apply reachable_long_run.
  - lia.
  - lia.
Defined.
